(** * use-current-date: the refresh-scheduling core of [useCurrentDate]

    A shallow embedding of [src/index.ts]: the anchor parser
    ([getRefreshValues] with [TIME_REGEX]), the anchor resolver (the
    [nextRefresh] / [prevRefresh] computation of the effect), the interval
    re-armer ([setIntervalRelativeTo]) and the value [useCurrentDate] returns.

    Modelling conventions.
    - A JavaScript number that holds a millisecond count is an integer far
      below 2^53, where double arithmetic is exact: it is a [Z].  The
      remainder operator [%] truncates toward zero: it is [Z.rem].
    - A JavaScript string is its sequence of UTF-16 code units, a [list N].
    - A [throw new Error(msg)] is the [Throw msg] case of [result].
    - The host's timers are an explicit [host] state threaded through the
      effect. *)

From Stdlib Require Import ZArith NArith List Lia Bool String Ascii.
From Stdlib Require Import Sorting.Sorted Sorting.Permutation.
Import ListNotations.
Open Scope list_scope.
Open Scope Z_scope.

(** ** JavaScript values and strings *)

Module Js.

Definition jsString := list N.

(** The code unit of an ASCII character, and the code units of a literal. *)
Definition ch (a : ascii) : N := N_of_ascii a.
Definition lit (s : string) : jsString := map N_of_ascii (list_ascii_of_string s).

(** Outcome of a computation that may [throw new Error(message)]. *)
Inductive result (A : Type) : Type :=
| Ok (a : A)
| Throw (message : jsString).
Arguments Ok {A} a.
Arguments Throw {A} message.

Definition bind {A B} (r : result A) (f : A -> result B) : result B :=
  match r with
  | Ok a => f a
  | Throw m => Throw m
  end.

(** [Array.prototype.map] with a callback that may throw: elements are
    visited from index 0 upward and the first throw aborts the whole map. *)
Fixpoint mapThrowing {A B} (f : A -> result B) (l : list A) : result (list B) :=
  match l with
  | [] => Ok []
  | x :: l' => bind (f x) (fun y => bind (mapThrowing f l') (fun ys => Ok (y :: ys)))
  end.

(** [String.prototype.trim]: strips WhiteSpace and LineTerminator code
    points (ECMAScript 12.2, 12.3) from both ends; all of them are single
    code units. *)
Definition isWhiteSpace (c : N) : bool :=
  (existsb (N.eqb c)
     [9; 10; 11; 12; 13; 32; 160; 5760; 8232; 8233; 8239; 8287; 12288; 65279]
   || ((8192 <=? c) && (c <=? 8202)))%N.

Fixpoint trimStart (s : jsString) : jsString :=
  match s with
  | [] => []
  | c :: s' => if isWhiteSpace c then trimStart s' else s
  end.

Definition trimEnd (s : jsString) : jsString := rev (trimStart (rev s)).
Definition trim (s : jsString) : jsString := trimEnd (trimStart s).

(** [Number(s)] on a string of decimal digits (the only strings the parser
    applies it to: the groups of [TIME_REGEX] capture digits only, see
    [TIME_REGEX_sound]): the decimal value, leading zeros
    ignored. *)
Definition digitValue (c : N) : Z := Z.of_N c - 48.
Definition Number (s : jsString) : Z :=
  fold_left (fun acc c => 10 * acc + digitValue c) s 0.

(** [n.toString()] for a non-negative integer: its decimal digits, most
    significant first, without leading zeros. *)
Fixpoint digitsOf (fuel : nat) (n : Z) (acc : jsString) : jsString :=
  match fuel with
  | O => acc
  | S fuel' =>
      let acc' := Z.to_N (48 + n mod 10) :: acc in
      if n / 10 =? 0 then acc' else digitsOf fuel' (n / 10) acc'
  end.
Definition toString (n : Z) : jsString := digitsOf (S (Z.to_nat (Z.log2 n))) n [].

(** [s.padEnd(len, c)] with a one-character filler. *)
Definition padEnd (len : nat) (c : N) (s : jsString) : jsString :=
  s ++ repeat c (len - List.length s).

(** [arr.filter(v => v != null)] on an array of optional strings. *)
Fixpoint filterNonNull {A} (l : list (option A)) : list A :=
  match l with
  | [] => []
  | Some x :: l' => x :: filterNonNull l'
  | None :: l' => filterNonNull l'
  end.

(** [arr[i] = x] for an index inside the array. *)
Fixpoint setAt {A} (i : nat) (x : A) (l : list A) : list A :=
  match l, i with
  | [], _ => []
  | _ :: l', O => x :: l'
  | y :: l', S i' => y :: setAt i' x l'
  end.

(** [arr.sort((a, b) => a - b)]: the ascending numeric order.  The
    comparator is a consistent total order on numbers, so every conforming
    sort returns the one ascending arrangement of the elements; insertion
    sort computes it. *)
Fixpoint insert (x : Z) (l : list Z) : list Z :=
  match l with
  | [] => [x]
  | y :: l' => if x <=? y then x :: l else y :: insert x l'
  end.
Fixpoint sortNumeric (l : list Z) : list Z :=
  match l with
  | [] => []
  | x :: l' => insert x (sortNumeric l')
  end.

(** [Date.UTC(1970, 0, 1, h, m, s, ms)] with the trailing arguments that are
    present: day 0 of the epoch, so the result is MakeTime(h, m, s, ms);
    absent arguments count as 0. *)
Definition Date_UTC_1970_0_1 (args : list Z) : Z :=
  nth 0 args 0 * 3600000 + nth 1 args 0 * 60000 + nth 2 args 0 * 1000 + nth 3 args 0.

End Js.
Import Js.

(** ** Regular expressions with capture groups *)

Module Regex.

(** The fragment of the pattern language [TIME_REGEX] is written in.  A
    non-capturing group [(?:r)] is plain nesting. *)
Inductive regex : Type :=
| Eps
| Class (p : N -> bool)
| Seq (r1 r2 : regex)
| Alt (r1 r2 : regex)
| Opt (r : regex)
| Group (i : nat) (r : regex).

Definition inRange (lo hi c : N) : bool := ((lo <=? c) && (c <=? hi))%N.

Definition chr (a : ascii) : regex := Class (N.eqb (ch a)).
Definition range (a b : ascii) : regex := Class (inRange (ch a) (ch b)).
(** [\d] without the unicode flag: the ten ASCII digits. *)
Definition digit : regex := range "0" "9".

(** [r{lo,hi}], greedy: [lo] mandatory copies, then up to [hi - lo] more. *)
Fixpoint upTo (n : nat) (r : regex) : regex :=
  match n with
  | O => Eps
  | S n' => Opt (Seq r (upTo n' r))
  end.
Fixpoint times (n : nat) (r rest : regex) : regex :=
  match n with
  | O => rest
  | S n' => Seq r (times n' r rest)
  end.
Definition repeatRange (lo hi : nat) (r : regex) : regex :=
  times lo r (upTo (hi - lo) r).

Definition captures := list (option jsString).

(** The text consumed between input [s] and its suffix [s']. *)
Definition consumed (s s' : jsString) : jsString :=
  firstn (List.length s - List.length s') s.

(** Backtracking matcher in continuation-passing style, in the order of
    the ECMAScript semantics: the left alternative first, an optional part
    greedily first; a capture is recorded when its group closes and
    dropped when the matcher backtracks over it. *)
Fixpoint rmatch (r : regex) (s : jsString) (c : captures)
    (k : jsString -> captures -> option captures) : option captures :=
  match r with
  | Eps => k s c
  | Class p =>
      match s with
      | x :: s' => if p x then k s' c else None
      | [] => None
      end
  | Seq r1 r2 => rmatch r1 s c (fun s' c' => rmatch r2 s' c' k)
  | Alt r1 r2 =>
      match rmatch r1 s c k with
      | Some m => Some m
      | None => rmatch r2 s c k
      end
  | Opt r1 =>
      match rmatch r1 s c k with
      | Some m => Some m
      | None => k s c
      end
  | Group i r1 => rmatch r1 s c (fun s' c' => k s' (setAt i (Some (consumed s s')) c'))
  end.

Definition atEnd : jsString -> captures -> option captures :=
  fun s c => match s with [] => Some c | _ :: _ => None end.

(** [/^r$/.exec(s)] for a pattern with [groups] capture groups and no
    flags: [^] admits a match at index 0 only and [$] at the end of the
    input only.  The match array holds the matched text at index 0 and
    group [i] at index [i], [None] (undefined) for a group that did not
    take part. *)
Definition execAnchored (r : regex) (groups : nat) (s : jsString) : option captures :=
  rmatch r s (Some s :: repeat None groups) atEnd.

End Regex.
Import Regex.

(** ** The parser: [getRefreshValues] *)

Definition TWENTY_FOUR_HOURS : Z := 24 * 60 * 60 * 1000.

(** [/^([01]?\d|2[0-3])(?::([0-5]\d)(?::([0-5]\d)(?:\.(\d{1,3}))?)?)?$/] *)
Definition FRACTION : regex := Opt (Seq (chr ".") (Group 4 (repeatRange 1 3 digit))).
Definition SECONDS : regex :=
  Opt (Seq (chr ":") (Seq (Group 3 (Seq (range "0" "5") digit)) FRACTION)).
Definition MINUTES : regex :=
  Opt (Seq (chr ":") (Seq (Group 2 (Seq (range "0" "5") digit)) SECONDS)).
Definition HOURS : regex :=
  Group 1 (Alt (Seq (Opt (range "0" "1")) digit) (Seq (chr "2") (range "0" "3"))).
Definition TIME_REGEX : regex := Seq HOURS MINUTES.

(** What [typeof v] distinguishes in an element of [refreshAt]. *)
Inductive value : Type :=
| VNumber (n : Z)
| VString (s : jsString)
| VOther.

(** The [refreshAt] option when it is not null: one value or an array. *)
Inductive refreshAtArg : Type :=
| One (v : value)
| Many (vs : list value).

(** [[refreshAt].flat()] *)
Definition flat1 (r : refreshAtArg) : list value :=
  match r with
  | One v => [v]
  | Many vs => vs
  end.

Definition invalidFormatPrefix : jsString :=
  lit "Invalid refreshAt value format.  Expected `h[:mm[:ss[.ms]]]`.  Received: '".
Definition invalidFormatMessage (v : jsString) : jsString :=
  invalidFormatPrefix ++ v ++ lit "'".
Definition invalidTypeMessage : jsString :=
  lit "refreshAt must be a string, a number, or an array of strings and numbers".
Definition emptyMessage : jsString := lit "refreshAt must have at least one value".

(** [TIME_REGEX.exec(v.trim())?.slice(1).filter(v => v != null).map(Number)] *)
Definition timeSegmentsOf (v : jsString) : option (list Z) :=
  option_map (fun m => map Number (filterNonNull (skipn 1 m)))
             (execAnchored TIME_REGEX 4 (trim v)).

(** The [if (timeSegments[3] < 100)] step; [undefined < 100] is false. *)
Definition padMilliseconds (timeSegments : list Z) : list Z :=
  match nth_error timeSegments 3 with
  | Some f =>
      if f <? 100
      then setAt 3 (Number (padEnd 3 (ch "0") (toString f))) timeSegments
      else timeSegments
  | None => timeSegments
  end.

(** The callback of [.map] in [getRefreshValues]. *)
Definition refreshValue (v : value) : result Z :=
  match v with
  | VNumber n => Ok (Z.rem n TWENTY_FOUR_HOURS)
  | VString s =>
      match timeSegmentsOf s with
      | None => Throw (invalidFormatMessage s)
      | Some timeSegments => Ok (Date_UTC_1970_0_1 (padMilliseconds timeSegments))
      end
  | VOther => Throw invalidTypeMessage
  end.

Definition getRefreshValues (refreshAt : refreshAtArg) : result (list Z) :=
  bind (mapThrowing refreshValue (flat1 refreshAt)) (fun vs => Ok (sortNumeric vs)).

(** ** The host: clock, time zone and timers *)

(** What a timer runs: [refresh] itself, or the closure
    [() => { fn(); interval = setInterval(fn, ms); }] that
    [setIntervalRelativeTo] hands to [setTimeout]. *)
Inductive callback : Type :=
| Refresh
| ThenSetInterval (fn : callback) (ms : Z).

Inductive period : Type :=
| Once
| Every (ms : Z).

Record timer : Type := mkTimer {
  due : Z;
  repeats : period;
  action : callback
}.

(** [clock] is [Date.now()]; [startOfLocalDay] is the host's time zone, as
    [setHours(0, 0, 0, 0)] sees it; [refreshed] logs the instants at which
    [refresh] ran, latest first. *)
Record host : Type := mkHost {
  clock : Z;
  startOfLocalDay : Z -> Z;
  timers : list timer;
  refreshed : list Z
}.

Definition addTimer (t : timer) (h : host) : host :=
  mkHost (clock h) (startOfLocalDay h) (timers h ++ [t]) (refreshed h).

(** A negative delay counts as 0. *)
Definition setTimeout (fn : callback) (delay : Z) (h : host) : host :=
  addTimer (mkTimer (clock h + Z.max 0 delay) Once fn) h.
Definition setInterval (fn : callback) (ms : Z) (h : host) : host :=
  addTimer (mkTimer (clock h + Z.max 0 ms) (Every ms) fn) h.

Definition logRefresh (h : host) : host :=
  mkHost (clock h) (startOfLocalDay h) (timers h) (clock h :: refreshed h).

Fixpoint runCallback (fn : callback) (h : host) : host :=
  match fn with
  | Refresh => logRefresh h
  | ThenSetInterval fn' ms => setInterval fn' ms (runCallback fn' h)
  end.

(** The timer [t], pending between [pre] and [post], fires: the clock
    stands at its due instant, a repeating timer is re-armed one period
    later, and its callback runs. *)
Definition fire (pre : list timer) (t : timer) (post : list timer) (h : host) : host :=
  let rearmed :=
    match repeats t with
    | Once => []
    | Every ms => [mkTimer (due t + Z.max 0 ms) (Every ms) (action t)]
    end in
  runCallback (action t)
    (mkHost (due t) (startOfLocalDay h) (pre ++ post ++ rearmed) (refreshed h)).

(** One turn of the event loop: a pending timer with the earliest due
    instant fires. *)
Inductive step : host -> host -> Prop :=
| step_fire h pre t post :
    timers h = pre ++ t :: post ->
    Forall (fun t' => due t <= due t') (timers h) ->
    step h (fire pre t post h).

Inductive steps : host -> host -> Prop :=
| steps_refl h : steps h h
| steps_next h1 h2 h3 : steps h1 h2 -> step h2 h3 -> steps h1 h3.

(** ** The hook *)

Record UseCurrentDateOptions : Type := mkOptions {
  utc : option bool;
  refreshAt : option refreshAtArg;
  returnCurrentTime : option bool;
  interval : option Z
}.

(** [a ?? b] *)
Definition orElse {A} (a : option A) (b : A) : A :=
  match a with
  | Some x => x
  | None => b
  end.

(** The time value of the [Date] that [getCurrentMidnight(utc)] returns;
    the parameter defaults to [false].  [setUTCHours(0, 0, 0, 0)] keeps
    the day number floor(t / msPerDay). *)
Definition getCurrentMidnight (h : host) (utc : option bool) : Z :=
  if orElse utc false
  then clock h / TWENTY_FOUR_HOURS * TWENTY_FOUR_HOURS
  else startOfLocalDay h (clock h).

(** [Date.now()] is read once more here; no time passes inside the
    synchronous effect. *)
Definition setIntervalRelativeTo (fn : callback) (fromTime ms : Z) (h : host) : host :=
  setTimeout (ThenSetInterval fn ms) (ms - Z.rem (clock h - fromTime) ms) h.

(** The two [find] expressions of the effect.  [refreshes.reverse()]
    reverses the array in place between them, so [refreshes[0]] is the
    smallest offset in the first and the largest in the second. *)
Definition nextRefreshOf (currentMidnightTime now : Z) (refreshes : list Z) : Z :=
  currentMidnightTime +
  orElse (find (fun v => currentMidnightTime + v >=? now) refreshes)
         (TWENTY_FOUR_HOURS + nth 0 refreshes 0).

Definition prevRefreshOf (currentMidnightTime now : Z) (refreshes : list Z) : Z :=
  currentMidnightTime +
  orElse (find (fun v => currentMidnightTime + v <? now) refreshes)
         (TWENTY_FOUR_HOURS + nth 0 refreshes 0).

(** The branch on [refreshAt] in the effect: the pair
    [(nextRefresh, prevRefresh)], or the error thrown. *)
Definition resolveRefreshes (refreshAt : option refreshAtArg)
    (currentMidnightTime now : Z) : result (Z * Z) :=
  let tomorrowMidnightTime := currentMidnightTime + TWENTY_FOUR_HOURS in
  match refreshAt with
  | None => Ok (tomorrowMidnightTime, currentMidnightTime)
  | Some r =>
      bind (getRefreshValues r) (fun refreshes =>
        if (List.length refreshes =? 0)%nat
        then Throw emptyMessage
        else
          let nextRefresh := nextRefreshOf currentMidnightTime now refreshes in
          let refreshes := rev refreshes in
          let prevRefresh := prevRefreshOf currentMidnightTime now refreshes in
          Ok (nextRefresh, prevRefresh))
  end.

(** The body of [useEffect]: the host after it and its outcome.  A throw
    leaves the effect before any timer is set.  (The cleanup closure it
    returns is not modelled.) *)
Definition effect (o : UseCurrentDateOptions) (h : host) : host * result unit :=
  let int := orElse (interval o) TWENTY_FOUR_HOURS in
  let currentMidnightTime := getCurrentMidnight h (utc o) in
  let now := clock h in
  match resolveRefreshes (refreshAt o) currentMidnightTime now with
  | Throw m => (h, Throw m)
  | Ok (nextRefresh, prevRefresh) =>
      let h := setTimeout Refresh (nextRefresh - now) h in
      let h := setIntervalRelativeTo Refresh prevRefresh int h in
      (h, Ok tt)
  end.

(** [returnCurrentTime ??= int != null || Array.isArray(refreshAt) && refreshAt.length > 1] *)
Definition returnCurrentTimeOf (o : UseCurrentDateOptions) : bool :=
  orElse (returnCurrentTime o)
    (match interval o with Some _ => true | None => false end
     || match refreshAt o with
        | Some (Many vs) => (1 <? List.length vs)%nat
        | _ => false
        end).

(** The time value of the [Date] the hook returns. *)
Definition useCurrentDate (o : UseCurrentDateOptions) (h : host) : Z :=
  if returnCurrentTimeOf o then clock h else getCurrentMidnight h (utc o).

(** ** The vocabulary of the specification *)

(** The grammar [H(:MM(:SS(.F)?)?)?] of a textual anchor: [H] is one or
    two digits with value in [0,23], [MM] and [SS] are two digits with
    value in [0,59], [F] is one to three digits.  [ClockText t segs] says
    that [t] is such a text and [segs] are its components, in order. *)
Definition Digit (c : N) : Prop := (48 <= c <= 57)%N.

Inductive Hour : jsString -> Prop :=
| Hour_one d : Digit d -> Hour [d]
| Hour_two a b : Digit a -> Digit b -> Number [a; b] <= 23 -> Hour [a; b].

Inductive Sixtieth : jsString -> Prop :=
| Sixtieth_two a b : Digit a -> Digit b -> Number [a; b] <= 59 -> Sixtieth [a; b].

Definition Fraction (f : jsString) : Prop :=
  Forall Digit f /\ (1 <= List.length f <= 3)%nat.

Inductive ClockText : jsString -> list jsString -> Prop :=
| Clock_h h :
    Hour h -> ClockText h [h]
| Clock_hm h m :
    Hour h -> Sixtieth m -> ClockText (h ++ ch ":" :: m) [h; m]
| Clock_hms h m s :
    Hour h -> Sixtieth m -> Sixtieth s ->
    ClockText (h ++ ch ":" :: m ++ ch ":" :: s) [h; m; s]
| Clock_hmsf h m s f :
    Hour h -> Sixtieth m -> Sixtieth s -> Fraction f ->
    ClockText (h ++ ch ":" :: m ++ ch ":" :: s ++ ch "." :: f) [h; m; s; f].

(** A textual anchor is malformed when, whitespace trimmed, it is not in
    the grammar. *)
Definition Malformed (v : jsString) : Prop := forall segs, ~ ClockText (trim v) segs.

(** The millisecond count the specification assigns to the components:
    hours, minutes, seconds, and the fraction digits right-padded with
    zeros to three. *)
Definition specMilliseconds (f : jsString) : Z := Number (padEnd 3 (ch "0") f).
Definition specClockValue (segs : list jsString) : Z :=
  match segs with
  | [h] => Number h * 3600000
  | [h; m] => Number h * 3600000 + Number m * 60000
  | [h; m; s] => Number h * 3600000 + Number m * 60000 + Number s * 1000
  | [h; m; s; f] =>
      Number h * 3600000 + Number m * 60000 + Number s * 1000 + specMilliseconds f
  | _ => 0
  end.

(** The millisecond component the code computes from the fraction digits:
    their number, re-padded as a number when below 100. *)
Definition codeMilliseconds (f : jsString) : Z :=
  let x := Number f in
  if x <? 100 then Number (padEnd 3 (ch "0") (toString x)) else x.

(** [((n mod 86400000) + 86400000) mod 86400000], with [mod] read as the
    remainder of the source language and as the mathematical modulus. *)
Definition specNormalizedRem (n : Z) : Z :=
  Z.rem (Z.rem n 86400000 + 86400000) 86400000.
Definition specNormalized (n : Z) : Z :=
  ((n mod 86400000) + 86400000) mod 86400000.

(** The grid [phaseReference + k * intervalMs]. *)
Definition onGrid (phaseReference intervalMs t : Z) : Prop :=
  exists k : Z, t = phaseReference + k * intervalMs.

Definition Ascending (l : list Z) : Prop := Sorted Z.le l.

(** The match array of a text [t] of the grammar with components [segs]:
    the text, its components, and undefined for the groups left out. *)
Definition matchArray (t : jsString) (segs : list jsString) : captures :=
  Some t :: map Some segs ++ repeat None (4 - List.length segs).

(** The value the code computes from the components of a text. *)
Definition codeClockValue (segs : list jsString) : Z :=
  match segs with
  | [h] => Number h * 3600000
  | [h; m] => Number h * 3600000 + Number m * 60000
  | [h; m; s] => Number h * 3600000 + Number m * 60000 + Number s * 1000
  | [h; m; s; f] =>
      Number h * 3600000 + Number m * 60000 + Number s * 1000 + codeMilliseconds f
  | _ => 0
  end.

(** What re-padding makes of a number below 100: one digit gains two
    zeros, two digits gain one. *)
Definition repadded (x : Z) : Z := if x <? 10 then x * 100 else x * 10.

(** A valid element of [refreshAt] is one the callback of [.map] does
    not throw on; [offsetOf] is the offset it returns. *)
Definition Valid (v : value) : Prop := exists x, refreshValue v = Ok x.

Definition offsetOf (v : value) : Z :=
  match refreshValue v with
  | Ok x => x
  | Throw _ => 0
  end.

(** A timer of the re-armer in phase with the grid: the first one-shot
    timer, or the repeating timer it starts. *)
Definition phasedTimer (fromTime ms : Z) (t : timer) : Prop :=
  onGrid fromTime ms (due t) /\
  ((repeats t = Once /\ action t = ThenSetInterval Refresh ms) \/
   (repeats t = Every ms /\ action t = Refresh)).

Definition Phased (fromTime ms : Z) (h : host) : Prop :=
  Forall (phasedTimer fromTime ms) (timers h) /\
  Forall (onGrid fromTime ms) (refreshed h).

(** The host after the re-armer's timers fired [S n] times, the first
    time at [first]. *)
Fixpoint fireLog (first ms : Z) (n : nat) : list Z :=
  match n with
  | O => [first]
  | S n' => (first + Z.of_nat n * ms) :: fireLog first ms n'
  end.
Definition afterFires (h : host) (first ms : Z) (n : nat) : host :=
  mkHost (first + Z.of_nat n * ms) (startOfLocalDay h)
         [mkTimer (first + Z.of_nat (S n) * ms) (Every ms) Refresh]
         (fireLog first ms n).

(** An element of [refreshAt] the parser accepts: a number, or a text of
    the grammar once trimmed. *)
Definition WellFormed (v : value) : Prop :=
  match v with
  | VNumber _ => True
  | VString s => exists segs, ClockText (trim s) segs
  | VOther => False
  end.

(** A callback that starts intervals of period [ms] only, and a timer in
    step with the grid [from + k * ms]: due on it, repeating, if at all,
    with period [ms], and running such a callback. *)
Fixpoint startsOnly (ms : Z) (fn : callback) : Prop :=
  match fn with
  | Refresh => True
  | ThenSetInterval fn' ms' => ms' = ms /\ startsOnly ms fn'
  end.

Definition gridTimer (from ms : Z) (t : timer) : Prop :=
  onGrid from ms (due t) /\
  (forall p, repeats t = Every p -> p = ms) /\
  startsOnly ms (action t).

Definition OnGrid (from ms : Z) (h : host) : Prop :=
  Forall (gridTimer from ms) (timers h) /\ Forall (onGrid from ms) (refreshed h).

(** ** Timer handles and the cleanup closures

    The cleanup the effect returns cancels timers by the handles that
    [setTimeout] and [setInterval] returned, one of them through the
    variable [interval] that the first fire assigns.  This module models
    the host with those handles and variables; forgetting them gives back
    the [host] above. *)

Module Handles.

(** A callback; [ThenSetInterval fn ms interval] is the closure
    [() => { fn(); interval = setInterval(fn, ms); }], where [interval]
    names the variable it assigns. *)
Inductive closure : Type :=
| CallRefresh
| CallThenSetInterval (fn : closure) (ms : Z) (interval : nat).

Record entry : Type := mkEntry {
  handle : nat;
  dueAt : Z;
  every : period;
  run : closure
}.

(** [variables] holds the [let interval;] cells, undefined until
    assigned; [nextHandle] is the handle the next timer gets. *)
Record state : Type := mkState {
  now : Z;
  zone : Z -> Z;
  pending : list entry;
  log : list Z;
  nextHandle : nat;
  variables : list (option nat)
}.

Definition setTimeout (fn : closure) (delay : Z) (s : state) : nat * state :=
  (nextHandle s,
   mkState (now s) (zone s)
           (pending s ++ [mkEntry (nextHandle s) (now s + Z.max 0 delay) Once fn])
           (log s) (S (nextHandle s)) (variables s)).

Definition setInterval (fn : closure) (ms : Z) (s : state) : nat * state :=
  (nextHandle s,
   mkState (now s) (zone s)
           (pending s ++ [mkEntry (nextHandle s) (now s + Z.max 0 ms) (Every ms) fn])
           (log s) (S (nextHandle s)) (variables s)).

(** [clearTimeout(id)] and [clearInterval(id)]: the timer with that
    handle, if any, is dropped; an undefined handle drops nothing. *)
Definition keeps (id : option nat) (e : entry) : bool :=
  match id with
  | Some i => negb (handle e =? i)%nat
  | None => true
  end.
Definition clearTimer (id : option nat) (s : state) : state :=
  mkState (now s) (zone s) (filter (keeps id) (pending s)) (log s)
          (nextHandle s) (variables s).

(** [let interval;] and [interval = id]. *)
Definition declare (s : state) : nat * state :=
  (List.length (variables s),
   mkState (now s) (zone s) (pending s) (log s) (nextHandle s) (variables s ++ [None])).
Definition assign (cell : nat) (id : nat) (s : state) : state :=
  mkState (now s) (zone s) (pending s) (log s) (nextHandle s)
          (setAt cell (Some id) (variables s)).

Fixpoint runClosure (fn : closure) (s : state) : state :=
  match fn with
  | CallRefresh =>
      mkState (now s) (zone s) (pending s) (now s :: log s) (nextHandle s) (variables s)
  | CallThenSetInterval fn' ms interval =>
      let '(id, s) := setInterval fn' ms (runClosure fn' s) in
      assign interval id s
  end.

(** The entry [e], pending between [pre] and [post], fires; a repeating
    timer keeps its handle. *)
Definition fire (pre : list entry) (e : entry) (post : list entry) (s : state) : state :=
  let rearmed :=
    match every e with
    | Once => []
    | Every ms => [mkEntry (handle e) (dueAt e + Z.max 0 ms) (Every ms) (run e)]
    end in
  runClosure (run e)
    (mkState (dueAt e) (zone s) (pre ++ post ++ rearmed) (log s)
             (nextHandle s) (variables s)).

Inductive step : state -> state -> Prop :=
| step_fire s pre e post :
    pending s = pre ++ e :: post ->
    Forall (fun e' => dueAt e <= dueAt e') (pending s) ->
    step s (fire pre e post s).

Inductive steps : state -> state -> Prop :=
| steps_refl s : steps s s
| steps_next s1 s2 s3 : steps s1 s2 -> step s2 s3 -> steps s1 s3.

(** [setIntervalRelativeTo]: the state after it, and what the closure it
    returns has captured, the handle [timeout] and the variable
    [interval]. *)
Definition setIntervalRelativeTo (fn : closure) (fromTime ms : Z) (s : state)
  : (nat * nat) * state :=
  let '(interval, s) := declare s in
  let '(timeout, s) :=
    setTimeout (CallThenSetInterval fn ms interval)
               (ms - Z.rem (now s - fromTime) ms) s in
  ((timeout, interval), s).

(** [() => { clearTimeout(timeout); clearInterval(interval); }] *)
Definition clear (captured : nat * nat) (s : state) : state :=
  let '(timeout, interval) := captured in
  let s := clearTimer (Some timeout) s in
  clearTimer (nth interval (variables s) None) s.

(** The host without handles and variables. *)
Fixpoint forgetClosure (fn : closure) : callback :=
  match fn with
  | CallRefresh => Refresh
  | CallThenSetInterval fn' ms _ => ThenSetInterval (forgetClosure fn') ms
  end.
Definition forgetEntry (e : entry) : timer :=
  mkTimer (dueAt e) (every e) (forgetClosure (run e)).
Definition forget (s : state) : host :=
  mkHost (now s) (zone s) (map forgetEntry (pending s)) (log s).

(** The body of [useEffect] with the cleanup it returns,
    [() => { clearTimeout(timeout); clear(); }], given by what it has
    captured. *)
Definition effect (o : UseCurrentDateOptions) (s : state)
  : state * result (nat * (nat * nat)) :=
  let int := orElse (interval o) TWENTY_FOUR_HOURS in
  let currentMidnightTime := getCurrentMidnight (forget s) (utc o) in
  match resolveRefreshes (refreshAt o) currentMidnightTime (now s) with
  | Throw m => (s, Throw m)
  | Ok (nextRefresh, prevRefresh) =>
      let '(timeout, s) := setTimeout CallRefresh (nextRefresh - now s) s in
      let '(clear, s) := setIntervalRelativeTo CallRefresh prevRefresh int s in
      (s, Ok (timeout, clear))
  end.

Definition cleanup (captured : nat * (nat * nat)) (s : state) : state :=
  let '(timeout, captured') := captured in
  clear captured' (clearTimer (Some timeout) s).

(** What is pending from one run of the effect: before the first fire of
    the re-armer its variable is undefined and only the two one-shot
    timers can be pending; afterwards the variable holds the handle of the
    repeating timer, and only that timer and the anchor timer can be. *)
Definition ownTimeout (timeout : nat) (e : entry) : Prop :=
  handle e = timeout /\ every e = Once /\ run e = CallRefresh.
Definition ownFirst (first interval : nat) (e : entry) : Prop :=
  handle e = first /\ every e = Once /\
  exists ms, run e = CallThenSetInterval CallRefresh ms interval.
Definition ownInterval (i : nat) (e : entry) : Prop :=
  handle e = i /\ run e = CallRefresh /\ exists ms, every e = Every ms.

Definition Owned (captured : nat * (nat * nat)) (s : state) : Prop :=
  let '(timeout, (first, interval)) := captured in
  (interval < List.length (variables s))%nat /\
  ((nth interval (variables s) None = None /\
    exists f, ownFirst first interval f /\
      (pending s = [f] \/ exists t, ownTimeout timeout t /\ pending s = [t; f])) \/
   (exists i, nth interval (variables s) None = Some i /\
    Forall (fun e => ownTimeout timeout e \/ ownInterval i e) (pending s))).

End Handles.


(** A configuration and a host to run the handles on:
    [{ utc: true, refreshAt: '5:00', interval: 120000 }] on 2022-07-08 at
    05:15:30.561 UTC, nothing pending, handle 1 next. *)
Definition demoOptions : UseCurrentDateOptions :=
  mkOptions (Some true) (Some (One (VString (lit "5:00")))) None (Some 120000).
Definition demoState : Handles.state :=
  Handles.mkState 1657257330561 (fun t => t) [] [] 1 [].

(** The timers of one run of the effect: the one-shot timer of the next
    anchor, due at [anchor], and the timers of the re-armer, in phase with
    the grid [from + k * ms]. *)
Definition Scheduled (anchor from ms : Z) (h : host) : Prop :=
  Forall (fun t => phasedTimer from ms t \/
                   (due t = anchor /\ repeats t = Once /\ action t = Refresh))
         (timers h) /\
  Forall (fun x => x = anchor \/ onGrid from ms x) (refreshed h).

(** * Properties *)

(** ** [TIME_REGEX] accepts exactly the grammar *)

Lemma inRange_true lo hi c : inRange lo hi c = true <-> (lo <= c <= hi)%N.
Proof. unfold inRange. rewrite andb_true_iff, !N.leb_le. tauto. Qed.

Lemma inRange_false lo hi c : inRange lo hi c = false <-> (c < lo \/ hi < c)%N.
Proof. unfold inRange. rewrite andb_false_iff, !N.leb_gt. tauto. Qed.

Lemma consumed_app (p s : jsString) : consumed (p ++ s) s = p.
Proof.
  unfold consumed. rewrite length_app, Nat.add_sub.
  rewrite firstn_app, Nat.sub_diag, firstn_all. simpl. apply app_nil_r.
Qed.

Lemma consumed_all (s : jsString) : consumed s [] = s.
Proof. rewrite <- (app_nil_r s) at 1. apply consumed_app. Qed.

Arguments consumed : simpl never.

(** Turns the character tests on which a case split was made into
    bounds on code units. *)
Ltac classes :=
  repeat match goal with
    | H : inRange _ _ _ = true |- _ => apply inRange_true in H
    | H : inRange _ _ _ = false |- _ => apply inRange_false in H
    | H : N.eqb _ _ = true |- _ => apply N.eqb_eq in H
    | H : N.eqb _ _ = false |- _ => apply N.eqb_neq in H
    end;
  unfold Digit, ch in *; simpl N_of_ascii in *.

(** Runs the matcher symbolically in the hypotheses: unfolds [rmatch],
    splits the input a character at a time and splits on every test and
    on every backtracking point, dropping the runs that fail. *)
Ltac scan :=
  cbn [rmatch upTo times Nat.sub] in *;
  repeat (match goal with
          | H : None = Some _ |- _ => discriminate H
          | H : context [match ?l with [] => _ | _ :: _ => _ end] |- _ =>
              is_var l; destruct l
          | H : context [if ?b then _ else _] |- _ => destruct b eqn:?
          | H : context [match ?o with Some _ => _ | None => _ end] |- _ =>
              destruct o eqn:?
          end;
          cbn [rmatch upTo times Nat.sub] in *).

Ltac same_result :=
  repeat match goal with
    | H : Some ?a = Some ?b |- _ => injection H as H; subst
    end.

(** Computes the text a group captured. *)
Ltac norm_consumed :=
  repeat match goal with
    | E : context [consumed (?a :: ?b :: ?s) ?s] |- _ =>
        change (consumed (a :: b :: s) s) with (consumed ([a; b] ++ s) s) in E;
        rewrite (consumed_app [a; b] s) in E
    | E : context [consumed (?a :: ?s) ?s] |- _ =>
        change (consumed (a :: s) s) with (consumed ([a] ++ s) s) in E;
        rewrite (consumed_app [a] s) in E
    end.

Ltac close_sound H :=
  classes; subst;
  rewrite ?consumed_all, ?(consumed_app [_]), ?(consumed_app [_; _]) in H;
  injection H as <-.

(** The tail of the pattern after the hours: each optional part either is
    absent, at the end of the input, or matches its separator and digits
    and hands over to the next part. *)

Lemma FRACTION_sound s c m :
  rmatch FRACTION s c atEnd = Some m ->
  (s = [] /\ m = c) \/
  (exists f, s = ch "." :: f /\ Fraction f /\ m = setAt 4 (Some f) c).
Proof.
  intros H. unfold FRACTION, repeatRange, chr, digit, range, atEnd in H.
  scan.
  all: try (left; split; [reflexivity | congruence]).
  all: right; close_sound H; eexists; split; [reflexivity | split; [ | reflexivity]].
  all: split; [|simpl; lia].
  all: repeat (apply Forall_cons; [unfold Digit; lia | ]); apply Forall_nil.
Qed.

Lemma Sixtieth_intro a b :
  (48 <= a <= 53)%N -> (48 <= b <= 57)%N -> Sixtieth [a; b].
Proof.
  intros Ha Hb. constructor; unfold Digit; try lia.
  unfold Number, digitValue. cbn [fold_left]. lia.
Qed.

Ltac close_tail H :=
  first
    [ unfold atEnd in H; discriminate H
    | left; unfold atEnd in H; split; [reflexivity | congruence]
    | right; classes; subst; norm_consumed; injection H as <-;
      do 3 eexists;
      split; [reflexivity | split; [apply Sixtieth_intro; lia | assumption]] ].

Lemma SECONDS_sound s c m :
  rmatch SECONDS s c atEnd = Some m ->
  (s = [] /\ m = c) \/
  (exists a b rest, s = ch ":" :: a :: b :: rest /\ Sixtieth [a; b] /\
     rmatch FRACTION rest (setAt 3 (Some [a; b]) c) atEnd = Some m).
Proof.
  intros H. unfold SECONDS, chr, digit, range in H.
  scan; close_tail H.
Qed.

Lemma MINUTES_sound s c m :
  rmatch MINUTES s c atEnd = Some m ->
  (s = [] /\ m = c) \/
  (exists a b rest, s = ch ":" :: a :: b :: rest /\ Sixtieth [a; b] /\
     rmatch SECONDS rest (setAt 2 (Some [a; b]) c) atEnd = Some m).
Proof.
  intros H. unfold MINUTES, chr, digit, range in H.
  scan; close_tail H.
Qed.

Ltac prove_Hour :=
  first
    [ apply Hour_one; unfold Digit; lia
    | apply Hour_two;
      [ unfold Digit; lia
      | unfold Digit; lia
      | unfold Number, digitValue; cbn [fold_left]; lia ] ].

(** The hours, whatever follows them: the group captures one digit, or
    two digits worth at most 23. *)
Lemma HOURS_sound s c k m :
  rmatch HOURS s c k = Some m ->
  exists h rest, s = h ++ rest /\ Hour h /\ k rest (setAt 1 (Some h) c) = Some m.
Proof.
  intros H. unfold HOURS, chr, digit, range in H.
  scan.
  all: same_result; norm_consumed; classes.
  all: match goal with
       | E : ?k ?rest (setAt 1 (Some ?h) ?c) = Some ?m
         |- exists _ _, _ /\ _ /\ ?k _ _ = Some ?m =>
           exists h, rest; split; [reflexivity | split; [prove_Hour | exact E]]
       end.
Qed.

(** After the hours the pattern wants a colon or the end of the input: it
    fails on a digit.  This is what makes the matcher come back from a
    wrong split of a two-digit hour. *)
Lemma MINUTES_digit s c x :
  Digit x -> rmatch MINUTES (x :: s) c atEnd = None.
Proof.
  intros Hx. unfold MINUTES, chr. cbn [rmatch].
  destruct (N.eqb (ch ":") x) eqn:E; [classes; lia | reflexivity].
Qed.

(** Every text the pattern matches is in the grammar, and the match array
    holds its components. *)
Theorem TIME_REGEX_sound t m :
  execAnchored TIME_REGEX 4 t = Some m ->
  exists segs, ClockText t segs /\ m = matchArray t segs.
Proof.
  unfold execAnchored, TIME_REGEX. cbn [rmatch]. intros H.
  apply HOURS_sound in H. destruct H as (h & r1 & -> & Hh & H).
  apply MINUTES_sound in H. destruct H as [[-> ->] | (a & b & r2 & -> & Hm & H)].
  { exists [h]. rewrite app_nil_r. split; [now constructor | reflexivity]. }
  apply SECONDS_sound in H. destruct H as [[-> ->] | (a' & b' & r3 & -> & Hs & H)].
  { exists [h; [a; b]]. split; [now constructor | reflexivity]. }
  apply FRACTION_sound in H. destruct H as [[-> ->] | (f & -> & Hf & ->)].
  { exists [h; [a; b]; [a'; b']].
    split; [now apply (Clock_hms h [a; b] [a'; b']) | reflexivity]. }
  exists [h; [a; b]; [a'; b']; f].
  split; [now apply (Clock_hmsf h [a; b] [a'; b'] f) | reflexivity].
Qed.

(** The same symbolic run in the goal, for a text of known shape. *)
Ltac scan_goal :=
  cbn [rmatch upTo times Nat.sub app];
  repeat (match goal with
          | |- context [if ?b then _ else _] => destruct b eqn:?
          end;
          cbn [rmatch upTo times Nat.sub app]).

Ltac norm_consumed_goal :=
  repeat match goal with
    | |- context [consumed (?a :: ?b :: ?s) ?s] =>
        change (consumed (a :: b :: s) s) with (consumed ([a; b] ++ s) s);
        rewrite (consumed_app [a; b] s)
    | |- context [consumed (?a :: ?s) ?s] =>
        change (consumed (a :: s) s) with (consumed ([a] ++ s) s);
        rewrite (consumed_app [a] s)
    end.

Lemma FRACTION_complete f c :
  Fraction f -> rmatch FRACTION (ch "." :: f) c atEnd = Some (setAt 4 (Some f) c).
Proof.
  intros [Hd Hl].
  destruct f as [|x [|y [|z [|w f]]]]; simpl in Hl; try lia;
    repeat match goal with H : Forall _ (_ :: _) |- _ => inversion H; clear H; subst end.
  all: unfold FRACTION, repeatRange, chr, digit, range; scan_goal.
  all: unfold atEnd; rewrite ?consumed_all; try reflexivity.
  all: classes; lia.
Qed.

Lemma SECONDS_complete x rest c :
  Sixtieth x ->
  rmatch SECONDS (ch ":" :: x ++ rest) c atEnd =
  rmatch FRACTION rest (setAt 3 (Some x) c) atEnd.
Proof.
  intros Hx. destruct Hx as [a b Ha Hb Hv].
  unfold Number, digitValue in Hv. cbn [fold_left] in Hv.
  unfold SECONDS, chr, digit, range; scan_goal; norm_consumed_goal.
  all: try (classes; lia).
  destruct (rmatch FRACTION rest _ atEnd); reflexivity.
Qed.

Lemma MINUTES_complete x rest c :
  Sixtieth x ->
  rmatch MINUTES (ch ":" :: x ++ rest) c atEnd =
  rmatch SECONDS rest (setAt 2 (Some x) c) atEnd.
Proof.
  intros Hx. destruct Hx as [a b Ha Hb Hv].
  unfold Number, digitValue in Hv. cbn [fold_left] in Hv.
  unfold MINUTES, chr, digit, range; scan_goal; norm_consumed_goal.
  all: try (classes; lia).
  destruct (rmatch SECONDS rest _ atEnd); reflexivity.
Qed.

Lemma HOURS_complete h rest c :
  Hour h -> rest = [] \/ (exists tl, rest = ch ":" :: tl) ->
  rmatch HOURS (h ++ rest) c (fun s' c' => rmatch MINUTES s' c' atEnd) =
  rmatch MINUTES rest (setAt 1 (Some h) c) atEnd.
Proof.
  intros Hh Hrest.
  destruct Hh as [d Hd | a b Ha Hb Hv].
  - unfold HOURS, chr, digit, range.
    destruct Hrest as [-> | [tl ->]]; scan_goal; norm_consumed_goal.
    all: try (classes; lia).
    all: rewrite ?consumed_all.
    all: repeat match goal with
           | |- context [match ?o with Some _ => _ | None => _ end] =>
               destruct o eqn:?
           end; try reflexivity.
  - unfold Number, digitValue in Hv. cbn [fold_left] in Hv.
    unfold HOURS, chr, digit, range. scan_goal; norm_consumed_goal.
    all: try (classes; lia).
    all: rewrite ?(MINUTES_digit rest _ b Hb).
    all: destruct (rmatch MINUTES rest _ atEnd); reflexivity.
Qed.

(** Every text of the grammar is matched, with its components as the
    groups. *)
Theorem TIME_REGEX_complete t segs :
  ClockText t segs -> execAnchored TIME_REGEX 4 t = Some (matchArray t segs).
Proof.
  unfold execAnchored, TIME_REGEX. cbn [rmatch].
  intros [h Hh | h m Hh Hm | h m s Hh Hm Hs | h m s f Hh Hm Hs Hf].
  - pose proof (HOURS_complete h [] (Some h :: repeat None 4) Hh (or_introl eq_refl)) as E.
    rewrite app_nil_r in E. rewrite E. reflexivity.
  - rewrite HOURS_complete by eauto.
    pose proof (fun c => MINUTES_complete m [] c Hm) as E.
    rewrite app_nil_r in E. rewrite E. reflexivity.
  - rewrite HOURS_complete by eauto. rewrite MINUTES_complete by auto.
    pose proof (fun c => SECONDS_complete s [] c Hs) as E.
    rewrite app_nil_r in E. rewrite E. reflexivity.
  - rewrite HOURS_complete by eauto. rewrite MINUTES_complete by auto.
    rewrite SECONDS_complete by auto. rewrite FRACTION_complete by auto. reflexivity.
Qed.

(** ** The text case of [refreshValue] *)

Lemma filterNonNull_matched {A} (l : list A) k :
  filterNonNull (map Some l ++ repeat None k) = l.
Proof.
  induction l as [|x l IH]; simpl.
  - induction k; simpl; auto.
  - now rewrite IH.
Qed.

Lemma timeSegmentsOf_clock v segs :
  ClockText (trim v) segs -> timeSegmentsOf v = Some (map Number segs).
Proof.
  intros H. unfold timeSegmentsOf.
  rewrite (TIME_REGEX_complete _ _ H). unfold matchArray. simpl.
  now rewrite filterNonNull_matched.
Qed.

Lemma timeSegmentsOf_sound v ts :
  timeSegmentsOf v = Some ts ->
  exists segs, ClockText (trim v) segs /\ ts = map Number segs.
Proof.
  unfold timeSegmentsOf. intros H.
  destruct (execAnchored TIME_REGEX 4 (trim v)) as [m|] eqn:E; [|discriminate].
  apply TIME_REGEX_sound in E. destruct E as (segs & Hc & ->).
  exists segs. split; [assumption|].
  simpl in H. injection H as <-. unfold matchArray. simpl.
  now rewrite filterNonNull_matched.
Qed.

Lemma timeSegmentsOf_malformed v : Malformed v <-> timeSegmentsOf v = None.
Proof.
  split.
  - intros H. destruct (timeSegmentsOf v) as [ts|] eqn:E; [|reflexivity].
    apply timeSegmentsOf_sound in E. destruct E as (segs & Hc & _).
    now apply H in Hc.
  - intros H segs Hc. apply timeSegmentsOf_clock in Hc. congruence.
Qed.

Lemma ClockText_length t segs : ClockText t segs -> (1 <= List.length segs <= 4)%nat.
Proof. destruct 1; simpl; lia. Qed.

Lemma padMilliseconds_clock t segs :
  ClockText t segs ->
  Date_UTC_1970_0_1 (padMilliseconds (map Number segs)) = codeClockValue segs.
Proof.
  destruct 1; unfold padMilliseconds, Date_UTC_1970_0_1, codeClockValue; cbn [map nth_error nth];
    try lia.
  unfold codeMilliseconds.
  destruct (Number f <? 100); cbn [setAt nth]; lia.
Qed.

Lemma refreshValue_clock v segs :
  ClockText (trim v) segs -> refreshValue (VString v) = Ok (codeClockValue segs).
Proof.
  intros H. unfold refreshValue. rewrite (timeSegmentsOf_clock _ _ H).
  now rewrite (padMilliseconds_clock _ _ H).
Qed.

Lemma refreshValue_text_ok v x :
  refreshValue (VString v) = Ok x ->
  exists segs, ClockText (trim v) segs /\ x = codeClockValue segs.
Proof.
  unfold refreshValue. destruct (timeSegmentsOf v) as [ts|] eqn:E; [|discriminate].
  apply timeSegmentsOf_sound in E. destruct E as (segs & Hc & ->).
  intros H. injection H as <-. exists segs. split; [assumption|].
  apply (padMilliseconds_clock _ _ Hc).
Qed.

Lemma refreshValue_malformed v :
  Malformed v -> refreshValue (VString v) = Throw (invalidFormatMessage v).
Proof.
  intros H. apply timeSegmentsOf_malformed in H. unfold refreshValue. now rewrite H.
Qed.

(** Bounds of the components. *)

Lemma Hour_bounds h : Hour h -> 0 <= Number h <= 23.
Proof.
  destruct 1 as [d Hd | a b Ha Hb Hv]; unfold Number, digitValue, Digit in *;
    cbn [fold_left] in *; lia.
Qed.

Lemma Sixtieth_bounds m : Sixtieth m -> 0 <= Number m <= 59.
Proof.
  destruct 1 as [a b Ha Hb Hv]; unfold Number, digitValue, Digit in *;
    cbn [fold_left] in *; lia.
Qed.

Lemma Fraction_bounds f : Fraction f -> 0 <= Number f <= 999.
Proof.
  intros [Hd Hl].
  destruct f as [|x [|y [|z [|w f]]]]; simpl in Hl; try lia;
    repeat match goal with H : Forall _ (_ :: _) |- _ => inversion H; clear H; subst end;
    unfold Number, digitValue, Digit in *; cbn [fold_left] in *; lia.
Qed.

(** [Number(x.toString().padEnd(3, '0'))] for the numbers below 100,
    checked on each of them. *)
Lemma repad_below_100 x :
  0 <= x < 100 -> Number (padEnd 3 (ch "0") (toString x)) = repadded x.
Proof.
  intros Hx.
  assert (Hall : forallb (fun n => Number (padEnd 3 (ch "0") (toString (Z.of_nat n)))
                                   =? repadded (Z.of_nat n)) (seq 0 100) = true)
    by (vm_compute; reflexivity).
  rewrite forallb_forall in Hall.
  specialize (Hall (Z.to_nat x)). rewrite Z2Nat.id in Hall by lia.
  apply Z.eqb_eq, Hall, in_seq. lia.
Qed.

Lemma codeMilliseconds_value f :
  Fraction f ->
  codeMilliseconds f =
    if Number f <? 10 then Number f * 100
    else if Number f <? 100 then Number f * 10 else Number f.
Proof.
  intros Hf. apply Fraction_bounds in Hf. unfold codeMilliseconds.
  destruct (Number f <? 100) eqn:E100.
  - rewrite repad_below_100 by lia. unfold repadded. reflexivity.
  - destruct (Number f <? 10) eqn:E10; [lia | reflexivity].
Qed.

Lemma codeMilliseconds_bounds f : Fraction f -> 0 <= codeMilliseconds f <= 999.
Proof.
  intros Hf. rewrite (codeMilliseconds_value f Hf). apply Fraction_bounds in Hf.
  destruct (Number f <? 10) eqn:E10; [lia|].
  destruct (Number f <? 100) eqn:E100; lia.
Qed.

Lemma codeClockValue_bounds t segs :
  ClockText t segs -> 0 <= codeClockValue segs < TWENTY_FOUR_HOURS.
Proof.
  unfold TWENTY_FOUR_HOURS.
  destruct 1; unfold codeClockValue;
    repeat match goal with
      | H : Hour _ |- _ => apply Hour_bounds in H
      | H : Sixtieth _ |- _ => apply Sixtieth_bounds in H
      | H : Fraction _ |- _ => apply codeMilliseconds_bounds in H
      end; lia.
Qed.

Lemma refreshValue_bounds v x :
  refreshValue v = Ok x -> - TWENTY_FOUR_HOURS < x < TWENTY_FOUR_HOURS.
Proof.
  destruct v as [n | s |]; [| | discriminate].
  - simpl. intros H. injection H as <-.
    pose proof (Z.rem_bound_abs n TWENTY_FOUR_HOURS).
    assert (Z.abs (Z.rem n TWENTY_FOUR_HOURS) < Z.abs TWENTY_FOUR_HOURS)
      by (apply Z.rem_bound_abs; unfold TWENTY_FOUR_HOURS; lia).
    unfold TWENTY_FOUR_HOURS in *. lia.
  - intros H. apply refreshValue_text_ok in H. destruct H as (segs & Hc & ->).
    apply codeClockValue_bounds in Hc. lia.
Qed.

(** The fraction digits that the code and the specification read alike:
    those without a leading zero, and the all-zero ones. *)
Lemma codeMilliseconds_spec f :
  Fraction f ->
  (nth 0 f 0%N <> ch "0" \/ Number f = 0) ->
  codeMilliseconds f = specMilliseconds f.
Proof.
  intros Hf Hz. rewrite (codeMilliseconds_value f Hf).
  destruct Hf as [Hd Hl]. unfold specMilliseconds, padEnd.
  destruct f as [|x [|y [|z [|w f]]]]; simpl in Hl; try lia;
    repeat match goal with H : Forall _ (_ :: _) |- _ => inversion H; clear H; subst end;
    change (ch "0") with 48%N in *;
    unfold Number, digitValue, Digit in *; cbn [nth] in Hz;
    cbn [fold_left List.length Nat.sub repeat app] in *.
  all: repeat match goal with |- context [?a <? ?b] => destruct (Z.ltb_spec a b) end.
  all: lia.
Qed.

(** ** Sorting *)

Lemma insert_perm x l : Permutation (x :: l) (insert x l).
Proof.
  induction l as [|y l IH]; simpl; [reflexivity|].
  destruct (x <=? y); [reflexivity|].
  rewrite perm_swap. now apply perm_skip.
Qed.

Lemma sortNumeric_perm l : Permutation l (sortNumeric l).
Proof.
  induction l as [|x l IH]; simpl; [reflexivity|].
  rewrite <- insert_perm. now apply perm_skip.
Qed.

Lemma insert_hd x l y : HdRel Z.le y l -> y <= x -> HdRel Z.le y (insert x l).
Proof.
  destruct l as [|z l]; simpl; intros Hl Hx.
  - now constructor.
  - destruct (x <=? z); constructor; [assumption | now inversion Hl].
Qed.

Lemma insert_sorted x l : Ascending l -> Ascending (insert x l).
Proof.
  unfold Ascending. induction 1 as [|y l Hs IH Hh]; simpl.
  - repeat constructor.
  - destruct (Z.leb_spec x y).
    + constructor; [now constructor | now constructor].
    + constructor; [assumption | apply insert_hd; [assumption | lia]].
Qed.

Lemma sortNumeric_sorted l : Ascending (sortNumeric l).
Proof.
  induction l as [|x l IH]; simpl; [constructor | now apply insert_sorted].
Qed.

Lemma insert_comm x y l : insert x (insert y l) = insert y (insert x l).
Proof.
  induction l as [|z l IH]; simpl.
  - destruct (Z.leb_spec x y), (Z.leb_spec y x); try reflexivity; try lia.
    now replace y with x by lia.
  - destruct (Z.leb_spec x z), (Z.leb_spec y z); simpl;
      repeat match goal with
        | |- context [?a <=? ?b] => destruct (Z.leb_spec a b)
        end; try reflexivity; try lia.
    + now replace y with x by lia.
    + now rewrite IH.
Qed.

Lemma sortNumeric_permutation l l' :
  Permutation l l' -> sortNumeric l = sortNumeric l'.
Proof.
  induction 1 as [| x l l' _ IH | x y l | l l' l'' _ IH1 _ IH2]; simpl.
  - reflexivity.
  - now rewrite IH.
  - apply insert_comm.
  - now rewrite IH1.
Qed.

Lemma sortNumeric_length l : List.length (sortNumeric l) = List.length l.
Proof. symmetry. apply Permutation_length, sortNumeric_perm. Qed.

Lemma Ascending_strong l : Ascending l -> StronglySorted Z.le l.
Proof. apply Sorted_StronglySorted. intros x y z. apply Z.le_trans. Qed.

Lemma Ascending_hd_least l o : Ascending l -> In o l -> nth 0 l 0 <= o.
Proof.
  intros Hs Hin. apply Ascending_strong in Hs.
  destruct l as [|x l]; [contradiction|]. simpl.
  inversion Hs as [|? ? _ Hall]; subst.
  destruct Hin as [-> | Hin]; [lia|].
  rewrite Forall_forall in Hall. now apply Hall.
Qed.

Lemma Ascending_last_greatest l o : Ascending l -> In o l -> o <= last l 0.
Proof.
  intros Hs. apply Ascending_strong in Hs. revert o.
  induction Hs as [|x l Hs IH Hall]; intros o Hin; [contradiction|].
  destruct l as [|y l].
  - destruct Hin as [-> | []]. simpl. lia.
  - change (last (x :: y :: l) 0) with (last (y :: l) 0).
    destruct Hin as [-> | Hin]; [|now apply IH].
    rewrite Forall_forall in Hall.
    transitivity y; [apply Hall; now left | apply IH; now left].
Qed.

Lemma nth_0_rev (l : list Z) : nth 0 (rev l) 0 = last l 0.
Proof.
  destruct (rev l) as [|x r] eqn:E.
  - apply (f_equal (@rev Z)) in E. rewrite rev_involutive in E. now subst.
  - apply (f_equal (@rev Z)) in E. rewrite rev_involutive in E. subst l.
    simpl. now rewrite last_last.
Qed.

(** ** [mapThrowing]: the first throw wins *)

Arguments refreshValue : simpl never.

Lemma mapThrowing_valid vs :
  Forall Valid vs -> mapThrowing refreshValue vs = Ok (map offsetOf vs).
Proof.
  induction 1 as [|v vs [x Hx] _ IH]; simpl; [reflexivity|].
  unfold offsetOf at 1. rewrite Hx, IH. reflexivity.
Qed.

Lemma mapThrowing_ok vs xs :
  mapThrowing refreshValue vs = Ok xs -> Forall Valid vs /\ xs = map offsetOf vs.
Proof.
  revert xs. induction vs as [|v vs IH]; simpl; intros xs H.
  - injection H as <-. auto.
  - destruct (refreshValue v) as [x|m] eqn:Hv; [|discriminate]. simpl in H.
    destruct (mapThrowing refreshValue vs) as [ys|m]; [|discriminate].
    simpl in H. injection H as <-. destruct (IH ys eq_refl) as [Hall ->].
    split; [constructor; [now exists x | assumption]|].
    cbn [map]. f_equal. unfold offsetOf. now rewrite Hv.
Qed.

Lemma mapThrowing_first_throw pre v post m :
  Forall Valid pre -> refreshValue v = Throw m ->
  mapThrowing refreshValue (pre ++ v :: post) = Throw m.
Proof.
  induction 1 as [|u pre [x Hx] _ IH]; simpl; intros Hv.
  - now rewrite Hv.
  - now rewrite Hx, (IH Hv).
Qed.

Lemma getRefreshValues_ok r refreshes :
  getRefreshValues r = Ok refreshes ->
  Ascending refreshes /\
  Forall (fun v => - TWENTY_FOUR_HOURS < v < TWENTY_FOUR_HOURS) refreshes /\
  List.length refreshes = List.length (flat1 r).
Proof.
  unfold getRefreshValues. intros H.
  destruct (mapThrowing refreshValue (flat1 r)) as [xs|m] eqn:E; [|discriminate].
  simpl in H. injection H as <-.
  apply mapThrowing_ok in E. destruct E as [Hall ->].
  split; [apply sortNumeric_sorted|]. split.
  - rewrite Forall_forall. intros x Hx.
    apply (Permutation_in _ (Permutation_sym (sortNumeric_perm _))) in Hx.
    apply in_map_iff in Hx. destruct Hx as (v & <- & Hv).
    rewrite Forall_forall in Hall. destruct (Hall v Hv) as [y Hy].
    unfold offsetOf. rewrite Hy. now apply refreshValue_bounds in Hy.
  - now rewrite sortNumeric_length, length_map.
Qed.

(** ** The anchor resolver *)

Lemma find_first {A} (p : A -> bool) pre x post :
  Forall (fun y => p y = false) pre -> p x = true ->
  find p (pre ++ x :: post) = Some x.
Proof.
  induction 1 as [|y pre Hy _ IH]; simpl; intros Hx.
  - now rewrite Hx.
  - rewrite Hy. now apply IH.
Qed.

Lemma find_split {A} (p : A -> bool) l x :
  find p l = Some x ->
  exists pre post, l = pre ++ x :: post /\ Forall (fun y => p y = false) pre /\ p x = true.
Proof.
  induction l as [|y l IH]; simpl; [discriminate|].
  destruct (p y) eqn:Hy.
  - intros H. injection H as ->. exists [], l. auto.
  - intros H. destruct (IH H) as (pre & post & -> & Hpre & Hx).
    exists (y :: pre), post. auto.
Qed.

Lemma find_none_iff {A} (p : A -> bool) l :
  find p l = None <-> Forall (fun y => p y = false) l.
Proof.
  rewrite Forall_forall. split.
  - intros H y. now apply find_none.
  - intros H. destruct (find p l) as [x|] eqn:E; [|reflexivity].
    apply find_some in E. destruct E as [Hin Hx]. rewrite (H x Hin) in Hx. discriminate.
Qed.

Lemma Ascending_after pre o post :
  Ascending (pre ++ o :: post) -> Forall (fun v => o <= v) post.
Proof.
  intros Hs. apply Ascending_strong in Hs.
  induction pre as [|x pre IH]; simpl in Hs; inversion Hs; subst; auto.
Qed.

(** The two scans of the effect, for a fixed midnight and current
    instant. *)
Section Scans.

Variables midnight now : Z.

Lemma nextRefreshOf_found refreshes pre o post :
  refreshes = pre ++ o :: post ->
  Forall (fun v => midnight + v < now) pre -> now <= midnight + o ->
  nextRefreshOf midnight now refreshes = midnight + o.
Proof.
  intros -> Hpre Ho. unfold nextRefreshOf.
  rewrite find_first; [reflexivity | | apply Z.geb_le; lia].
  eapply Forall_impl; [|exact Hpre]. intros v Hv. cbv beta in *.
  destruct (Z.geb_spec (midnight + v) now); [lia | reflexivity].
Qed.

Lemma nextRefreshOf_wrapped refreshes :
  Forall (fun v => midnight + v < now) refreshes ->
  nextRefreshOf midnight now refreshes = midnight + TWENTY_FOUR_HOURS + nth 0 refreshes 0.
Proof.
  intros Hall. unfold nextRefreshOf.
  assert (E : find (fun v => midnight + v >=? now) refreshes = None).
  { apply find_none_iff.
    eapply Forall_impl; [|exact Hall]. intros v Hv. cbv beta in *.
    destruct (Z.geb_spec (midnight + v) now); [lia | reflexivity]. }
  rewrite E. unfold orElse. lia.
Qed.

Lemma nextRefreshOf_cases refreshes :
  (exists pre o post, refreshes = pre ++ o :: post /\
     Forall (fun v => midnight + v < now) pre /\ now <= midnight + o) \/
  Forall (fun v => midnight + v < now) refreshes.
Proof.
  destruct (find (fun v => midnight + v >=? now) refreshes) as [o|] eqn:E.
  - left. apply find_split in E. destruct E as (pre & post & -> & Hpre & Ho).
    exists pre, o, post. split; [reflexivity|]. split; [|apply Z.geb_le in Ho; lia].
    eapply Forall_impl; [|exact Hpre]. intros v Hv. cbv beta in *.
    destruct (Z.geb_spec (midnight + v) now); [discriminate | lia].
  - right. apply find_none_iff in E.
    eapply Forall_impl; [|exact E]. intros v Hv. cbv beta in *.
    destruct (Z.geb_spec (midnight + v) now); [discriminate | lia].
Qed.

Lemma prevRefreshOf_found refreshes :
  (exists v, In v refreshes /\ midnight + v < now) ->
  exists p, In p refreshes /\ midnight + p < now /\
            prevRefreshOf midnight now (rev refreshes) = midnight + p.
Proof.
  intros (v & Hin & Hv). unfold prevRefreshOf.
  destruct (find (fun v => midnight + v <? now) (rev refreshes)) as [p|] eqn:E.
  - apply find_some in E. destruct E as [Hp Hlt].
    exists p. rewrite <- in_rev in Hp. apply Z.ltb_lt in Hlt. auto.
  - apply find_none with (x := v) in E; [|now rewrite <- in_rev].
    apply Z.ltb_ge in E. lia.
Qed.

Lemma prevRefreshOf_wrapped refreshes :
  Forall (fun v => now <= midnight + v) refreshes ->
  prevRefreshOf midnight now (rev refreshes) =
  midnight + last refreshes 0 + TWENTY_FOUR_HOURS.
Proof.
  intros Hall. unfold prevRefreshOf.
  assert (E : find (fun v => midnight + v <? now) (rev refreshes) = None).
  { apply find_none_iff. apply Forall_rev.
    eapply Forall_impl; [|exact Hall]. intros v Hv. cbv beta in *.
    apply Z.ltb_ge. lia. }
  rewrite E. unfold orElse. rewrite nth_0_rev. lia.
Qed.

End Scans.

Lemma resolveRefreshes_some r refreshes midnight now :
  getRefreshValues r = Ok refreshes -> refreshes <> [] ->
  resolveRefreshes (Some r) midnight now =
  Ok (nextRefreshOf midnight now refreshes,
      prevRefreshOf midnight now (rev refreshes)).
Proof.
  intros Hr Hne. unfold resolveRefreshes. rewrite Hr. unfold bind.
  destruct refreshes; [contradiction | reflexivity].
Qed.

(** C1 (the code departs from the claim).  When [now] is earlier than
    every anchor of today, the claim wants the previous anchor to be
    yesterday's latest one, [midnight + largest - 24h].  The code adds the
    24 hours instead of subtracting them: its result is
    [midnight + largest + 24h], tomorrow's latest anchor, an instant after
    [now]. *)
Theorem prevRefresh_wraps_forward midnight now refreshes :
  refreshes <> [] -> Ascending refreshes ->
  Forall (fun offset => now < midnight + offset) refreshes ->
  Forall (fun offset => offset <= last refreshes 0) refreshes /\
  prevRefreshOf midnight now (rev refreshes) =
    midnight + last refreshes 0 + TWENTY_FOUR_HOURS /\
  prevRefreshOf midnight now (rev refreshes) <>
    midnight + last refreshes 0 - TWENTY_FOUR_HOURS /\
  now < prevRefreshOf midnight now (rev refreshes).
Proof.
  intros Hne Hs Hall.
  assert (Hprev : prevRefreshOf midnight now (rev refreshes) =
                  midnight + last refreshes 0 + TWENTY_FOUR_HOURS).
  { apply prevRefreshOf_wrapped. eapply Forall_impl; [|exact Hall].
    intros v Hv. cbv beta in *. lia. }
  assert (Hlast : In (last refreshes 0) refreshes).
  { destruct (exists_last Hne) as (l & x & ->). rewrite last_last.
    apply in_or_app. right. now left. }
  rewrite Forall_forall in Hall. apply Hall in Hlast.
  split; [|rewrite Hprev; unfold TWENTY_FOUR_HOURS; repeat split; lia].
  rewrite Forall_forall. intros o Ho. now apply Ascending_last_greatest.
Qed.

Lemma prevRefresh_wraps_forward_witness :
  prevRefreshOf 1657238400000 1657256340000 (rev [18000000]) =
    1657238400000 + last [18000000] 0 + TWENTY_FOUR_HOURS /\
  prevRefreshOf 1657238400000 1657256340000 (rev [18000000]) <>
    1657238400000 + last [18000000] 0 - TWENTY_FOUR_HOURS /\
  1657256340000 < prevRefreshOf 1657238400000 1657256340000 (rev [18000000]).
Proof.
  apply (prevRefresh_wraps_forward 1657238400000 1657256340000 [18000000]).
  - discriminate.
  - repeat constructor.
  - repeat constructor.
Defined.

(** The same input through the whole effect:
    [{ utc: true, refreshAt: '5:00', interval: 7h }] on 2022-07-08 at
    04:59:00 UTC.  The one-shot timer is due at 05:00; the interval timer,
    in phase with 05:00 of the next day, is first due at 15:00, where a
    phase taken from 05:00 of the day before would make it due at 09:00. *)
Example effect_before_first_anchor :
  resolveRefreshes (Some (One (VString (lit "5:00")))) 1657238400000 1657256340000 =
    Ok (1657256400000, 1657342800000) /\
  effect (mkOptions (Some true) (Some (One (VString (lit "5:00")))) None (Some 25200000))
         (mkHost 1657256340000 (fun t => t) [] []) =
    (mkHost 1657256340000 (fun t => t)
            [mkTimer 1657256400000 Once Refresh;
             mkTimer 1657292400000 Once (ThenSetInterval Refresh 25200000)] [],
     Ok tt) /\
  timers (setIntervalRelativeTo Refresh (1657238400000 + 18000000 - TWENTY_FOUR_HOURS)
            25200000 (mkHost 1657256340000 (fun t => t) [] [])) =
    [mkTimer 1657270800000 Once (ThenSetInterval Refresh 25200000)].
Proof. repeat split; vm_compute; reflexivity. Qed.

(** C5.  On a non-empty ascending list the next anchor is
    [midnight + o] for the first offset [o] whose instant is not before
    [now] (every offset ahead of it in the list lies before [now]); when no
    offset qualifies it is [midnight + 24h + firstOffset]; one of the two
    cases always applies.  An anchor whose instant is [now] exactly is the
    next anchor and is not the previous one. *)
Theorem nextRefresh_first_at_or_after midnight now refreshes :
  refreshes <> [] -> Ascending refreshes ->
  (forall pre o post,
      refreshes = pre ++ o :: post ->
      Forall (fun v => midnight + v < now) pre -> now <= midnight + o ->
      nextRefreshOf midnight now refreshes = midnight + o) /\
  (Forall (fun v => midnight + v < now) refreshes ->
      nextRefreshOf midnight now refreshes =
      midnight + TWENTY_FOUR_HOURS + nth 0 refreshes 0) /\
  ((exists pre o post, refreshes = pre ++ o :: post /\
      Forall (fun v => midnight + v < now) pre /\ now <= midnight + o) \/
   Forall (fun v => midnight + v < now) refreshes) /\
  (forall o, In o refreshes -> midnight + o = now ->
      nextRefreshOf midnight now refreshes = now /\
      prevRefreshOf midnight now (rev refreshes) <> now).
Proof.
  intros Hne Hs.
  split; [intros pre o post; apply nextRefreshOf_found|].
  split; [apply nextRefreshOf_wrapped|].
  split; [apply nextRefreshOf_cases|].
  intros o Hin Ho. split.
  - destruct (nextRefreshOf_cases midnight now refreshes)
      as [(pre & o' & post & E & Hpre & Ho') | Hall].
    + rewrite (nextRefreshOf_found _ _ _ _ _ _ E Hpre Ho').
      (* the first qualifying offset is not after [o] *)
      assert (o' <= o); [|lia].
      subst refreshes. apply in_app_or in Hin. destruct Hin as [Hin | Hin].
      * rewrite Forall_forall in Hpre. apply Hpre in Hin. lia.
      * apply Ascending_after in Hs.
        destruct Hin as [-> | Hin]; [lia|].
        rewrite Forall_forall in Hs. now apply Hs.
    + rewrite Forall_forall in Hall. apply Hall in Hin. lia.
  - unfold prevRefreshOf.
    destruct (find (fun v => midnight + v <? now) (rev refreshes)) as [p|] eqn:E.
    + apply find_some in E. destruct E as [_ Hlt]. apply Z.ltb_lt in Hlt.
      unfold orElse. lia.
    + unfold orElse. rewrite nth_0_rev.
      assert (Hl : In (last refreshes 0) (rev refreshes)).
      { rewrite <- in_rev. destruct (exists_last Hne) as (l & x & ->).
        rewrite last_last. apply in_or_app. right. now left. }
      apply (find_none _ _ E) in Hl. apply Z.ltb_ge in Hl.
      unfold TWENTY_FOUR_HOURS. lia.
Qed.

Lemma nextRefresh_first_at_or_after_witness :
  nextRefreshOf 0 10 [5; 10] = 10 /\ prevRefreshOf 0 10 (rev [5; 10]) <> 10.
Proof.
  assert (Hne : [5; 10] <> []) by discriminate.
  assert (Hs : Ascending [5; 10]) by (repeat constructor; lia).
  apply (proj2 (proj2 (proj2 (nextRefresh_first_at_or_after 0 10 [5; 10] Hne Hs))) 10).
  - simpl. auto.
  - reflexivity.
Defined.

(** C2 (as stated it fails).  With anchors 5 ms and 10 ms past midnight
    and [now] on the second one (2022-07-08 00:00:00.010 UTC), the next
    anchor is [now] itself: [now < next] does not hold. *)
Lemma resolved_pair_tie_counterexample :
  resolveRefreshes (Some (Many [VNumber 5; VNumber 10])) 1657238400000 1657238400010 =
    Ok (1657238400010, 1657238400005) /\
  ~ (1657238400005 <= 1657238400010 < 1657238400010 /\
     1657238400010 - 1657238400005 <= TWENTY_FOUR_HOURS).
Proof. split; [vm_compute; reflexivity | lia]. Qed.

(** C2 (amended).  For a configuration whose normalized offsets
    [refreshes] are non-empty and non-negative, and [now] inside the
    current day: the next anchor is not before [now], and coincides with
    [now] only when an anchor of today does; and whenever some anchor of
    today lies strictly before [now], the previous anchor lies strictly
    before [now] and at most 24 hours before the next one. *)
Theorem resolved_pair_brackets_now r refreshes midnight now :
  getRefreshValues r = Ok refreshes -> refreshes <> [] ->
  Forall (fun v => 0 <= v) refreshes ->
  midnight <= now < midnight + TWENTY_FOUR_HOURS ->
  exists next prev,
    resolveRefreshes (Some r) midnight now = Ok (next, prev) /\
    now <= next /\
    (next = now -> exists v, In v refreshes /\ midnight + v = now) /\
    ((exists v, In v refreshes /\ midnight + v < now) ->
       prev < now /\ next - prev <= TWENTY_FOUR_HOURS).
Proof.
  intros Hr Hne Hpos Hday.
  destruct (getRefreshValues_ok _ _ Hr) as (Hs & Hbound & _).
  exists (nextRefreshOf midnight now refreshes),
         (prevRefreshOf midnight now (rev refreshes)).
  split; [now apply resolveRefreshes_some|].
  assert (Hhd : In (nth 0 refreshes 0) refreshes)
    by (destruct refreshes; [contradiction | now left]).
  rewrite Forall_forall in Hpos, Hbound.
  destruct (nextRefreshOf_cases midnight now refreshes)
    as [(pre & o & post & E & Hpre & Ho) | Hall].
  - rewrite (nextRefreshOf_found _ _ _ _ _ _ E Hpre Ho).
    assert (Hin : In o refreshes) by (rewrite E; apply in_or_app; right; now left).
    split; [lia|]. split; [intros; exists o; split; [assumption | lia]|].
    intros Hex. destruct (prevRefreshOf_found _ _ _ Hex) as (p & Hp & Hlt & ->).
    pose proof (Hpos p Hp). pose proof (Hbound o Hin). lia.
  - rewrite (nextRefreshOf_wrapped _ _ _ Hall).
    pose proof (Hpos _ Hhd). split; [lia|]. split; [lia|].
    intros Hex. destruct (prevRefreshOf_found _ _ _ Hex) as (p & Hp & Hlt & ->).
    pose proof (Ascending_hd_least _ _ Hs Hp). lia.
Qed.

Lemma resolved_pair_brackets_now_witness :
  exists next prev,
    resolveRefreshes (Some (Many [VNumber 10; VNumber 5])) 0 7 = Ok (next, prev) /\
    7 <= next /\
    (next = 7 -> exists v, In v [5; 10] /\ 0 + v = 7) /\
    ((exists v, In v [5; 10] /\ 0 + v < 7) ->
       prev < 7 /\ next - prev <= TWENTY_FOUR_HOURS).
Proof.
  apply (resolved_pair_brackets_now (Many [VNumber 10; VNumber 5]) [5; 10] 0 7).
  - reflexivity.
  - discriminate.
  - repeat constructor; lia.
  - unfold TWENTY_FOUR_HOURS. lia.
Defined.

(** ** Numeric anchors *)

Lemma specNormalized_mod n : specNormalized n = n mod 86400000.
Proof.
  unfold specNormalized.
  pose proof (Z.mod_pos_bound n 86400000 ltac:(lia)).
  rewrite <- (Z.mul_1_l 86400000) at 2.
  rewrite Z.mod_add by lia. apply Z.mod_mod. lia.
Qed.

Lemma specNormalizedRem_mod n : specNormalizedRem n = n mod 86400000.
Proof.
  unfold specNormalizedRem.
  assert (Hb : Z.abs (Z.rem n 86400000) < Z.abs 86400000)
    by (apply Z.rem_bound_abs; lia).
  rewrite Z.rem_mod_nonneg by lia.
  rewrite <- (Z.mul_1_l 86400000) at 2. rewrite Z.mod_add by lia.
  destruct (Z_le_gt_dec 0 n).
  - rewrite Z.rem_mod_nonneg by lia. apply Z.mod_mod. lia.
  - pose proof (Z.rem_opp_l' n 86400000) as E.
    rewrite Z.rem_mod_nonneg in E by lia.
    replace (Z.rem n 86400000) with (- ((- n) mod 86400000)) by lia.
    pose proof (Z.mod_pos_bound (- n) 86400000 ltac:(lia)).
    pose proof (Z.mod_pos_bound n 86400000 ltac:(lia)).
    pose proof (Z.div_mod n 86400000 ltac:(lia)).
    pose proof (Z.div_mod (- n) 86400000 ltac:(lia)).
    pose proof (Z.div_mod (- ((- n) mod 86400000)) 86400000 ltac:(lia)).
    pose proof (Z.mod_pos_bound (- ((- n) mod 86400000)) 86400000 ltac:(lia)).
    nia.
Qed.

(** C3 (as stated it fails).  The code keeps the sign of a negative
    numeric anchor: for [-1] it returns [-1], where the claim's formula
    gives 86399999 under either reading of [mod]. *)
Lemma negative_anchor_counterexample :
  refreshValue (VNumber (-1)) = Ok (-1) /\
  specNormalized (-1) = 86399999 /\
  specNormalizedRem (-1) = 86399999 /\
  refreshValue (VNumber (-1)) <> Ok (specNormalized (-1)).
Proof.
  repeat split; try (vm_compute; reflexivity). vm_compute. discriminate.
Qed.

(** C3 (amended).  The parser's result for a numeric anchor [n] is the
    truncated remainder [n % 86400000].  For every non-negative [n] it
    equals [((n mod 86400000) + 86400000) mod 86400000] and lies in
    [0, 24h); for a negative [n] it is [-((-n) mod 86400000)] and lies in
    (-24h, 0]. *)
Theorem numeric_anchor_truncated n :
  refreshValue (VNumber n) = Ok (Z.rem n TWENTY_FOUR_HOURS) /\
  (0 <= n ->
     refreshValue (VNumber n) = Ok (specNormalized n) /\
     refreshValue (VNumber n) = Ok (specNormalizedRem n) /\
     0 <= Z.rem n TWENTY_FOUR_HOURS < TWENTY_FOUR_HOURS) /\
  (n < 0 ->
     refreshValue (VNumber n) = Ok (- specNormalized (- n)) /\
     - TWENTY_FOUR_HOURS < Z.rem n TWENTY_FOUR_HOURS <= 0).
Proof.
  change TWENTY_FOUR_HOURS with 86400000.
  split; [reflexivity|]. split.
  - intros Hn. rewrite specNormalizedRem_mod, specNormalized_mod.
    unfold refreshValue. change TWENTY_FOUR_HOURS with 86400000.
    rewrite Z.rem_mod_nonneg by lia.
    pose proof (Z.mod_pos_bound n 86400000 ltac:(lia)). auto.
  - intros Hn. rewrite specNormalized_mod.
    unfold refreshValue. change TWENTY_FOUR_HOURS with 86400000.
    pose proof (Z.rem_opp_l' n 86400000) as E.
    rewrite Z.rem_mod_nonneg in E by lia.
    pose proof (Z.mod_pos_bound (- n) 86400000 ltac:(lia)).
    replace (Z.rem n 86400000) with (- ((- n) mod 86400000)) by lia.
    split; [reflexivity | lia].
Qed.

Lemma numeric_anchor_truncated_witness :
  refreshValue (VNumber 86700000) = Ok (specNormalized 86700000) /\
  refreshValue (VNumber (-300000)) = Ok (- specNormalized (- -300000)).
Proof.
  split.
  - apply (proj1 (proj2 (numeric_anchor_truncated 86700000))). lia.
  - apply (proj2 (proj2 (numeric_anchor_truncated (-300000)))). lia.
Defined.

(** ** Textual anchors *)

(** Where the code and the specification agree: a text of the grammar
    whose fraction, if any, has no leading zero or is all zeros parses to
    the millisecond count of its components. *)
Lemma refreshValue_spec_value v segs :
  ClockText (trim v) segs ->
  (forall f, nth_error segs 3 = Some f -> nth 0 f 0%N <> ch "0" \/ Number f = 0) ->
  refreshValue (VString v) = Ok (specClockValue segs).
Proof.
  intros Hc Hf. rewrite (refreshValue_clock _ _ Hc). f_equal.
  inversion Hc; subst; try reflexivity.
  unfold codeClockValue, specClockValue.
  rewrite codeMilliseconds_spec; [reflexivity | assumption | now apply Hf].
Qed.

(** Where they differ: a leading zero in a fraction that is not all
    zeros. *)
Lemma codeMilliseconds_leading_zero f :
  Fraction f -> nth 0 f 0%N = ch "0" -> Number f <> 0 ->
  codeMilliseconds f = 10 * specMilliseconds f \/
  codeMilliseconds f = 100 * specMilliseconds f.
Proof.
  intros Hf Hz Hn. rewrite (codeMilliseconds_value f Hf).
  destruct Hf as [Hd Hl]. unfold specMilliseconds, padEnd.
  destruct f as [|x [|y [|z [|w f]]]]; simpl in Hl; try lia;
    repeat match goal with H : Forall _ (_ :: _) |- _ => inversion H; clear H; subst end;
    change (ch "0") with 48%N in *;
    unfold Number, digitValue, Digit in *; cbn [nth] in Hz; subst x;
    cbn [fold_left List.length Nat.sub repeat app] in *.
  all: repeat match goal with |- context [?a <? ?b] => destruct (Z.ltb_spec a b) end.
  all: lia.
Qed.

(** C4 (the code departs from the claim).  ["8:30:55.05"] is a text of the
    grammar with components 8, 30, 55 and fraction ["05"]; right-padded,
    the fraction is 050, so the claim's value is 30655050.  The code turns
    the fraction into the number 5 before padding it and returns
    30655500. *)
Theorem leading_zero_fraction_misparsed :
  ClockText (trim (lit "8:30:55.05")) [lit "8"; lit "30"; lit "55"; lit "05"] /\
  specClockValue [lit "8"; lit "30"; lit "55"; lit "05"] = 30655050 /\
  refreshValue (VString (lit "8:30:55.05")) = Ok 30655500.
Proof.
  split; [|split; vm_compute; reflexivity].
  change (trim (lit "8:30:55.05"))
    with (lit "8" ++ ch ":" :: lit "30" ++ ch ":" :: lit "55" ++ ch "." :: lit "05").
  constructor.
  - apply Hour_one. vm_compute. intuition discriminate.
  - apply Sixtieth_two; vm_compute; intuition discriminate.
  - apply Sixtieth_two; vm_compute; intuition discriminate.
  - split; [|simpl; lia]. repeat constructor; vm_compute; intuition discriminate.
Qed.

(** The malformed texts the specification lists. *)
Lemma malformed_examples :
  Forall Malformed
    ([] :: map lit ["abc"; "-1"; "24"; "8:"; "8:60"; "8:30:60"; "8:30:55.2567"]%string).
Proof.
  repeat constructor; intros segs H; apply timeSegmentsOf_clock in H;
    vm_compute in H; discriminate H.
Qed.

Lemma getRefreshValues_first_throw pre u post m :
  Forall Valid pre -> refreshValue u = Throw m ->
  getRefreshValues (Many (pre ++ u :: post)) = Throw m.
Proof.
  intros Hpre Hu. unfold getRefreshValues, flat1.
  now rewrite (mapThrowing_first_throw pre u post m Hpre Hu).
Qed.

(** C7.  A malformed textual anchor makes the parse throw the
    invalid-format error, whose message holds the raw text between the
    fixed opening and a closing quote: when passed alone, alone in an
    array, or in an array after valid values (whatever follows it).  In an
    array, the error thrown is that of the first element, in input order,
    on which the callback throws. *)
Theorem malformed_text_throws v :
  Malformed v ->
  invalidFormatMessage v = invalidFormatPrefix ++ v ++ lit "'" /\
  getRefreshValues (One (VString v)) = Throw (invalidFormatMessage v) /\
  getRefreshValues (Many [VString v]) = Throw (invalidFormatMessage v) /\
  (forall pre post, Forall Valid pre ->
     getRefreshValues (Many (pre ++ VString v :: post)) =
     Throw (invalidFormatMessage v)) /\
  (forall pre u post m, Forall Valid pre -> refreshValue u = Throw m ->
     getRefreshValues (Many (pre ++ u :: post)) = Throw m).
Proof.
  intros Hv. apply refreshValue_malformed in Hv.
  split; [reflexivity|].
  split; [apply (getRefreshValues_first_throw [] (VString v) []); auto|].
  split; [apply (getRefreshValues_first_throw [] (VString v) []); auto|].
  split.
  - intros pre post Hpre. now apply getRefreshValues_first_throw.
  - intros pre u post m. apply getRefreshValues_first_throw.
Qed.

Lemma malformed_text_throws_witness :
  Forall (fun v =>
            getRefreshValues (One (VString v)) = Throw (invalidFormatMessage v) /\
            getRefreshValues (Many [VString v]) = Throw (invalidFormatMessage v) /\
            getRefreshValues (Many [VNumber 1; VString v; VNumber 3]) =
            Throw (invalidFormatMessage v))
    ([] :: map lit ["abc"; "-1"; "24"; "8:"; "8:60"; "8:30:60"; "8:30:55.2567"]%string).
Proof.
  eapply Forall_impl; [|exact malformed_examples].
  intros v Hv.
  destruct (malformed_text_throws v Hv) as (_ & H1 & H2 & H3 & _).
  split; [exact H1|]. split; [exact H2|].
  apply (H3 [VNumber 1] [VNumber 3]).
  constructor; [|constructor]. exists 1. reflexivity.
Defined.

(** C8.  With the empty array as [refreshAt] the effect throws the error
    with message "refreshAt must have at least one value" and leaves the
    host as it found it: no timer is set. *)
Theorem empty_anchor_array_throws u rct int h :
  effect (mkOptions u (Some (Many [])) rct int) h =
    (h, Throw (lit "refreshAt must have at least one value")) /\
  timers (fst (effect (mkOptions u (Some (Many [])) rct int) h)) = timers h.
Proof. split; reflexivity. Qed.

(** C9.  Two arrays of valid anchors that are permutations of one another
    normalize to the same ascending list of offsets, and the effect leaves
    the same host behind for both. *)
Theorem getRefreshValues_order_irrelevant vs vs' :
  Forall Valid vs -> Permutation vs vs' ->
  exists offsets,
    getRefreshValues (Many vs) = Ok offsets /\
    getRefreshValues (Many vs') = Ok offsets /\
    Ascending offsets /\
    Permutation (map offsetOf vs) offsets /\
    forall u rct int h,
      effect (mkOptions u (Some (Many vs)) rct int) h =
      effect (mkOptions u (Some (Many vs')) rct int) h.
Proof.
  intros Hvs Hperm.
  assert (Hvs' : Forall Valid vs').
  { rewrite Forall_forall in *. intros v Hv. apply Hvs.
    now apply (Permutation_in _ (Permutation_sym Hperm)). }
  assert (E : getRefreshValues (Many vs) = Ok (sortNumeric (map offsetOf vs))).
  { unfold getRefreshValues, flat1. now rewrite mapThrowing_valid. }
  assert (E' : getRefreshValues (Many vs') = Ok (sortNumeric (map offsetOf vs))).
  { unfold getRefreshValues, flat1. rewrite mapThrowing_valid by assumption.
    unfold bind. f_equal. apply sortNumeric_permutation.
    apply Permutation_map. now apply Permutation_sym. }
  exists (sortNumeric (map offsetOf vs)).
  split; [exact E|]. split; [exact E'|].
  split; [apply sortNumeric_sorted|]. split; [apply sortNumeric_perm|].
  intros u rct int h. unfold effect, resolveRefreshes. cbn [refreshAt].
  now rewrite E, E'.
Qed.

Lemma getRefreshValues_order_irrelevant_witness :
  exists offsets,
    getRefreshValues (Many [VNumber 10; VNumber 5]) = Ok offsets /\
    getRefreshValues (Many [VNumber 5; VNumber 10]) = Ok offsets /\
    Ascending offsets /\
    Permutation (map offsetOf [VNumber 10; VNumber 5]) offsets /\
    forall u rct int h,
      effect (mkOptions u (Some (Many [VNumber 10; VNumber 5])) rct int) h =
      effect (mkOptions u (Some (Many [VNumber 5; VNumber 10])) rct int) h.
Proof.
  apply (getRefreshValues_order_irrelevant [VNumber 10; VNumber 5] [VNumber 5; VNumber 10]).
  - repeat constructor; eexists; reflexivity.
  - apply perm_swap.
Defined.

(** C10.  When [returnCurrentTime] is left out, it defaults to true
    exactly when [interval] is given or [refreshAt] is an array of more
    than one element; the hook then returns the current instant, and
    otherwise the midnight instant chosen by [utc], which for the UTC day
    is the multiple of 24 hours at or next before the current instant. *)
Theorem returnCurrentTime_default u r int h :
  (returnCurrentTimeOf (mkOptions u r None int) = true <->
     int <> None \/ exists vs, r = Some (Many vs) /\ (1 < List.length vs)%nat) /\
  (int <> None \/ (exists vs, r = Some (Many vs) /\ (1 < List.length vs)%nat) ->
     useCurrentDate (mkOptions u r None int) h = clock h) /\
  (int = None -> (forall vs, r = Some (Many vs) -> (List.length vs <= 1)%nat) ->
     useCurrentDate (mkOptions u r None int) h = getCurrentMidnight h u) /\
  (u = Some true ->
     getCurrentMidnight h u mod TWENTY_FOUR_HOURS = 0 /\
     getCurrentMidnight h u <= clock h < getCurrentMidnight h u + TWENTY_FOUR_HOURS) /\
  (u <> Some true -> getCurrentMidnight h u = startOfLocalDay h (clock h)).
Proof.
  assert (Hiff : returnCurrentTimeOf (mkOptions u r None int) = true <->
     int <> None \/ exists vs, r = Some (Many vs) /\ (1 < List.length vs)%nat).
  { unfold returnCurrentTimeOf, orElse. cbn [returnCurrentTime interval refreshAt].
    destruct int as [i|]; cbn [orb].
    - split; [left; discriminate | reflexivity].
    - destruct r as [[v | vs]|].
      + split; [discriminate | intros [H | (vs & H & _)]; congruence].
      + rewrite Nat.ltb_lt. split.
        * intros H. right. exists vs. auto.
        * intros [H | (vs' & H & Hl)]; [congruence|]. injection H as ->. exact Hl.
      + split; [discriminate | intros [H | (vs & H & _)]; congruence]. }
  split; [exact Hiff|]. split; [|split; [|split]].
  - intros H. apply Hiff in H. unfold useCurrentDate. now rewrite H.
  - intros Hi Hr. unfold useCurrentDate.
    rewrite (not_true_is_false (returnCurrentTimeOf (mkOptions u r None int)));
      [reflexivity|].
    intros E. apply Hiff in E. destruct E as [E | (vs & E & Hl)]; [congruence|].
    apply Hr in E. lia.
  - intros ->. unfold getCurrentMidnight, orElse, TWENTY_FOUR_HOURS.
    pose proof (Z.div_mod (clock h) (24 * 60 * 60 * 1000) ltac:(lia)).
    pose proof (Z.mod_pos_bound (clock h) (24 * 60 * 60 * 1000) ltac:(lia)).
    split; [apply Z.mod_mul; lia | lia].
  - intros Hu. unfold getCurrentMidnight, orElse.
    destruct u as [[|]|]; congruence.
Qed.

Lemma returnCurrentTime_default_witness :
  useCurrentDate (mkOptions None None None (Some 300000))
    (mkHost 1657257330561 (fun t => t) [] []) = 1657257330561 /\
  useCurrentDate (mkOptions (Some true) (Some (One (VNumber 0))) None None)
    (mkHost 1657257330561 (fun t => t) [] []) = 1657238400000.
Proof.
  split.
  - apply (proj1 (proj2 (returnCurrentTime_default None None (Some 300000)
                           (mkHost 1657257330561 (fun t => t) [] [])))).
    left. discriminate.
  - rewrite (proj1 (proj2 (proj2 (returnCurrentTime_default
               (Some true) (Some (One (VNumber 0))) None
               (mkHost 1657257330561 (fun t => t) [] []))))).
    + vm_compute. reflexivity.
    + reflexivity.
    + intros vs H. discriminate H.
Defined.

(** ** The interval re-armer *)

Ltac host_simpl :=
  unfold setIntervalRelativeTo, fire;
  repeat progress
    (cbn [runCallback repeats action due clock startOfLocalDay timers refreshed
          app fireLog];
     unfold setTimeout, setInterval, addTimer, logRefresh).

Lemma onGrid_next fromTime ms t : onGrid fromTime ms t -> onGrid fromTime ms (t + ms).
Proof. intros [k ->]. exists (k + 1). lia. Qed.

Lemma first_fire_on_grid fromTime ms now :
  0 < ms -> onGrid fromTime ms (now + (ms - Z.rem (now - fromTime) ms)).
Proof.
  intros Hms. exists ((now - fromTime) ÷ ms + 1).
  pose proof (Z.quot_rem' (now - fromTime) ms). lia.
Qed.

Lemma first_delay_bounds fromTime ms now :
  0 < ms -> 0 < ms - Z.rem (now - fromTime) ms < 2 * ms.
Proof.
  intros Hms.
  assert (Z.abs (Z.rem (now - fromTime) ms) < Z.abs ms) by (apply Z.rem_bound_abs; lia).
  lia.
Qed.

Lemma phased_every fromTime ms t :
  0 < ms -> onGrid fromTime ms t ->
  Forall (phasedTimer fromTime ms) [mkTimer (t + Z.max 0 ms) (Every ms) Refresh].
Proof.
  intros Hms Ht. constructor; [|constructor]. split.
  - cbn. rewrite Z.max_r by lia. now apply onGrid_next.
  - right. split; reflexivity.
Qed.

Lemma step_phased fromTime ms h h' :
  0 < ms -> Phased fromTime ms h -> step h h' -> Phased fromTime ms h'.
Proof.
  intros Hms [Ht Hr] Hstep. destruct Hstep as [h pre t post E _].
  rewrite E in Ht. apply Forall_app in Ht. destruct Ht as [Hpre Ht].
  inversion Ht as [|? ? [Hdue Hkind] Hpost]; subst.
  unfold fire.
  destruct Hkind as [[Hrep Hact] | [Hrep Hact]]; rewrite Hrep, Hact.
  - (* the one-shot timer: refresh, then start the repeating timer *)
    split; cbn.
    + rewrite app_nil_r. apply Forall_app. split; [apply Forall_app; now split|].
      now apply phased_every.
    + now constructor.
  - (* the repeating timer: refresh, armed again one period later *)
    split; cbn.
    + apply Forall_app. split; [assumption|]. apply Forall_app. split; [assumption|].
      now apply phased_every.
    + now constructor.
Qed.

Lemma steps_phased fromTime ms h h' :
  0 < ms -> Phased fromTime ms h -> steps h h' -> Phased fromTime ms h'.
Proof.
  intros Hms Hh Hsteps. induction Hsteps as [h | h1 h2 h3 _ IH Hstep]; [assumption|].
  apply (step_phased fromTime ms h2 h3 Hms (IH Hh) Hstep).
Qed.

Lemma armed_phased fromTime ms h :
  0 < ms -> timers h = [] -> refreshed h = [] ->
  Phased fromTime ms (setIntervalRelativeTo Refresh fromTime ms h).
Proof.
  intros Hms Ht Hr. unfold setIntervalRelativeTo, setTimeout, addTimer.
  pose proof (first_delay_bounds fromTime ms (clock h) Hms).
  split; cbn; rewrite ?Ht, ?Hr; [|constructor].
  constructor; [|constructor]. split.
  - cbn. rewrite Z.max_r by lia. now apply first_fire_on_grid.
  - left. split; reflexivity.
Qed.

Lemma armed_fires fromTime ms h n :
  0 < ms -> timers h = [] -> refreshed h = [] ->
  steps (setIntervalRelativeTo Refresh fromTime ms h)
        (afterFires h (clock h + (ms - Z.rem (clock h - fromTime) ms)) ms n).
Proof.
  intros Hms Ht Hr.
  pose proof (first_delay_bounds fromTime ms (clock h) Hms) as Hd.
  set (first := clock h + (ms - Z.rem (clock h - fromTime) ms)).
  induction n as [|n IH].
  - eapply steps_next; [apply steps_refl|].
    assert (E : afterFires h first ms 0 =
                fire [] (mkTimer first Once (ThenSetInterval Refresh ms)) []
                     (setIntervalRelativeTo Refresh fromTime ms h)).
    { unfold afterFires. host_simpl.
      rewrite Hr, !Z.max_r by lia. f_equal; [lia|]. f_equal. f_equal. lia. }
    rewrite E. apply step_fire.
    + host_simpl. rewrite Ht, Z.max_r by lia. reflexivity.
    + host_simpl. rewrite Ht, Z.max_r by lia.
      constructor; [|constructor]. cbn [due]. fold first. lia.
  - eapply steps_next; [exact IH|].
    assert (E : afterFires h first ms (S n) =
                fire [] (mkTimer (first + Z.of_nat (S n) * ms) (Every ms) Refresh) []
                     (afterFires h first ms n)).
    { unfold afterFires. host_simpl.
      rewrite Z.max_r by lia. f_equal. f_equal. f_equal. lia. }
    rewrite E. apply step_fire; [reflexivity|].
    constructor; [|constructor]. cbn [due]. lia.
Qed.

Lemma fireLog_grid first ms n t :
  In t (fireLog first ms n) <-> exists j, (j <= n)%nat /\ t = first + Z.of_nat j * ms.
Proof.
  induction n as [|n IH]; cbn [fireLog In].
  - split.
    + intros [<- | []]. exists 0%nat. split; [lia | simpl; lia].
    + intros (j & Hj & ->). left. replace j with 0%nat by lia. simpl. lia.
  - rewrite IH. split.
    + intros [<- | (j & Hj & ->)]; [exists (S n) | exists j]; split; auto.
    + intros (j & Hj & ->). destruct (Nat.eq_dec j (S n)) as [-> | Hne].
      * now left.
      * right. exists j. split; [lia | reflexivity].
Qed.

(** C6.  Armed on a host with no timer pending, for a positive interval
    [ms], the re-armer sets one timer whose delay is
    [ms - ((now - fromTime) % ms)], a positive delay below two periods.
    Every instant at which a refresh runs afterwards lies on the grid
    [fromTime + k * ms], wherever [now] stands with respect to [fromTime],
    and the refreshes do run: the first after that delay, then one every
    [ms]. *)
Theorem setIntervalRelativeTo_on_grid fromTime ms h :
  0 < ms -> timers h = [] -> refreshed h = [] ->
  timers (setIntervalRelativeTo Refresh fromTime ms h) =
    [mkTimer (clock h + (ms - Z.rem (clock h - fromTime) ms)) Once
             (ThenSetInterval Refresh ms)] /\
  0 < ms - Z.rem (clock h - fromTime) ms < 2 * ms /\
  (fromTime <= clock h ->
     Z.rem (clock h - fromTime) ms = (clock h - fromTime) mod ms) /\
  (forall h', steps (setIntervalRelativeTo Refresh fromTime ms h) h' ->
     Forall (onGrid fromTime ms) (refreshed h')) /\
  (forall n, exists h',
     steps (setIntervalRelativeTo Refresh fromTime ms h) h' /\
     refreshed h' = fireLog (clock h + (ms - Z.rem (clock h - fromTime) ms)) ms n).
Proof.
  intros Hms Ht Hr.
  pose proof (first_delay_bounds fromTime ms (clock h) Hms) as Hd.
  split; [|split; [exact Hd | split; [|split]]].
  - host_simpl. rewrite Ht, Z.max_r by lia. reflexivity.
  - intros Hle. apply Z.rem_mod_nonneg; lia.
  - intros h' Hsteps.
    apply (steps_phased fromTime ms _ h' Hms (armed_phased fromTime ms h Hms Ht Hr) Hsteps).
  - intros n. eexists. split; [apply (armed_fires fromTime ms h n Hms Ht Hr) | reflexivity].
Qed.

Lemma setIntervalRelativeTo_on_grid_witness :
  timers (setIntervalRelativeTo Refresh 10 5 (mkHost 7 (fun t => t) [] [])) =
    [mkTimer 15 Once (ThenSetInterval Refresh 5)] /\
  exists h',
    steps (setIntervalRelativeTo Refresh 10 5 (mkHost 7 (fun t => t) [] [])) h' /\
    refreshed h' = [25; 20; 15].
Proof.
  destruct (setIntervalRelativeTo_on_grid 10 5 (mkHost 7 (fun t => t) [] []))
    as (Htimers & _ & _ & _ & Hfires).
  - lia.
  - reflexivity.
  - reflexivity.
  - split; [exact Htimers | exact (Hfires 2%nat)].
Defined.

(** ** More on the parser *)

(** X1.  [TIME_REGEX] matches a text exactly when the text is of the form
    [h[:mm[:ss[.f]]]] with one or two hour digits worth at most 23, two
    minute and two second digits worth at most 59 and one to three
    fraction digits; the match array then holds the text and its
    components, and undefined for the parts left out. *)
Theorem TIME_REGEX_matches_grammar t m :
  execAnchored TIME_REGEX 4 t = Some m <->
  exists segs, ClockText t segs /\ m = matchArray t segs.
Proof.
  split.
  - apply TIME_REGEX_sound.
  - intros (segs & Hc & ->). now apply TIME_REGEX_complete.
Qed.

Lemma TIME_REGEX_matches_grammar_witness :
  execAnchored TIME_REGEX 4 (lit "23:59") =
  Some [Some (lit "23:59"); Some (lit "23"); Some (lit "59"); None; None].
Proof.
  apply (proj2 (TIME_REGEX_matches_grammar (lit "23:59") _)).
  exists [lit "23"; lit "59"]. split; [|reflexivity].
  apply (Clock_hm (lit "23") (lit "59")).
  - apply Hour_two; vm_compute; intuition discriminate.
  - apply Sixtieth_two; vm_compute; intuition discriminate.
Defined.

(** X2.  A textual anchor that parses is a text of the grammar, and its
    offset lies in [0, 24h). *)
Theorem textual_anchor_within_day v x :
  refreshValue (VString v) = Ok x ->
  (exists segs, ClockText (trim v) segs) /\ 0 <= x < TWENTY_FOUR_HOURS.
Proof.
  intros H. apply refreshValue_text_ok in H. destruct H as (segs & Hc & ->).
  split; [now exists segs | apply (codeClockValue_bounds _ _ Hc)].
Qed.

Lemma textual_anchor_within_day_witness :
  (exists segs, ClockText (trim (lit "23:59:59.999")) segs) /\
  0 <= 86399999 < TWENTY_FOUR_HOURS.
Proof.
  apply (textual_anchor_within_day (lit "23:59:59.999") 86399999).
  vm_compute. reflexivity.
Defined.

(** X3.  A successful normalization returns the offsets of the elements,
    rearranged in ascending order: as many as the array holds, each
    strictly between -24h and 24h. *)
Theorem getRefreshValues_normal_form r refreshes :
  getRefreshValues r = Ok refreshes ->
  Ascending refreshes /\
  Permutation (map offsetOf (flat1 r)) refreshes /\
  List.length refreshes = List.length (flat1 r) /\
  Forall (fun v => - TWENTY_FOUR_HOURS < v < TWENTY_FOUR_HOURS) refreshes.
Proof.
  intros H. destruct (getRefreshValues_ok _ _ H) as (Hs & Hb & Hl).
  split; [assumption|]. split; [|split; assumption].
  unfold getRefreshValues in H.
  destruct (mapThrowing refreshValue (flat1 r)) as [xs|m] eqn:E; [|discriminate].
  apply mapThrowing_ok in E. destruct E as [_ ->].
  injection H as <-. apply sortNumeric_perm.
Qed.

Lemma getRefreshValues_normal_form_witness :
  Ascending [-1; 18000000; 82800000] /\
  Permutation
    (map offsetOf [VString (lit "23:00"); VNumber (-1); VString (lit " 5:00 ")])
    [-1; 18000000; 82800000] /\
  List.length [-1; 18000000; 82800000] = 3%nat /\
  Forall (fun v => - TWENTY_FOUR_HOURS < v < TWENTY_FOUR_HOURS) [-1; 18000000; 82800000].
Proof.
  apply (getRefreshValues_normal_form
           (Many [VString (lit "23:00"); VNumber (-1); VString (lit " 5:00 ")])).
  vm_compute. reflexivity.
Defined.

(** Trimming. *)

Lemma trimStart_leading ws s :
  Forall (fun c => isWhiteSpace c = true) ws -> trimStart (ws ++ s) = trimStart s.
Proof. induction 1 as [|c ws Hc _ IH]; simpl; [reflexivity | now rewrite Hc]. Qed.

Lemma trimStart_trailing s ws :
  Forall (fun c => isWhiteSpace c = true) ws ->
  trimStart (s ++ ws) = match trimStart s with [] => [] | _ :: _ => trimStart s ++ ws end.
Proof.
  intros Hws. induction s as [|c s IH]; simpl.
  - rewrite <- (app_nil_r ws). now rewrite trimStart_leading.
  - destruct (isWhiteSpace c); [exact IH | reflexivity].
Qed.

Lemma trimEnd_trailing s ws :
  Forall (fun c => isWhiteSpace c = true) ws -> trimEnd (s ++ ws) = trimEnd s.
Proof.
  intros Hws. unfold trimEnd. rewrite rev_app_distr.
  rewrite trimStart_leading; [reflexivity | now apply Forall_rev].
Qed.

Lemma trim_surrounded ws t ws' :
  Forall (fun c => isWhiteSpace c = true) ws ->
  Forall (fun c => isWhiteSpace c = true) ws' ->
  trim (ws ++ t ++ ws') = trim t.
Proof.
  intros Hws Hws'. unfold trim. rewrite trimStart_leading by assumption.
  rewrite trimStart_trailing by assumption.
  destruct (trimStart t) as [|c s]; [reflexivity|].
  now apply trimEnd_trailing.
Qed.

(** X4.  White space around a textual anchor does not change how it
    parses: the trimmed text is the same, a text that parses keeps its
    offset, and a malformed text stays malformed, the error message
    quoting the text as given, white space included. *)
Theorem surrounding_whitespace_ignored ws t ws' :
  Forall (fun c => isWhiteSpace c = true) ws ->
  Forall (fun c => isWhiteSpace c = true) ws' ->
  trim (ws ++ t ++ ws') = trim t /\
  (forall x, refreshValue (VString t) = Ok x ->
             refreshValue (VString (ws ++ t ++ ws')) = Ok x) /\
  (Malformed t ->
     refreshValue (VString (ws ++ t ++ ws')) =
     Throw (invalidFormatMessage (ws ++ t ++ ws'))).
Proof.
  intros Hws Hws'. pose proof (trim_surrounded ws t ws' Hws Hws') as E.
  split; [exact E|]. split.
  - intros x Hx. apply refreshValue_text_ok in Hx. destruct Hx as (segs & Hc & ->).
    apply refreshValue_clock. now rewrite E.
  - intros Hm. apply refreshValue_malformed. intros segs Hc. rewrite E in Hc.
    now apply (Hm segs).
Qed.

Lemma surrounding_whitespace_ignored_witness :
  refreshValue (VString (lit " " ++ lit "5:00" ++ [9; 10]%N)) = Ok 18000000.
Proof.
  apply (surrounding_whitespace_ignored (lit " ") (lit "5:00") [9; 10]%N).
  - repeat constructor.
  - repeat constructor.
  - vm_compute. reflexivity.
Defined.

Lemma Valid_WellFormed v : Valid v <-> WellFormed v.
Proof.
  destruct v as [n | s |]; simpl.
  - split; [trivial | intros _; eexists; reflexivity].
  - split.
    + intros [x Hx]. apply refreshValue_text_ok in Hx. destruct Hx as (segs & Hc & _).
      now exists segs.
    + intros [segs Hc]. exists (codeClockValue segs). apply (refreshValue_clock _ _ Hc).
  - split; [intros [x Hx]; unfold refreshValue in Hx; discriminate | contradiction].
Qed.

Lemma mapThrowing_throw vs m :
  mapThrowing refreshValue vs = Throw m ->
  exists pre v post, vs = pre ++ v :: post /\ Forall Valid pre /\ refreshValue v = Throw m.
Proof.
  induction vs as [|u vs IH]; [discriminate|]. cbn [mapThrowing].
  destruct (refreshValue u) as [x|m'] eqn:Hu; cbn [bind].
  - destruct (mapThrowing refreshValue vs) as [ys|m'] eqn:E; cbn [bind]; [discriminate|].
    intros H. injection H as ->. destruct (IH eq_refl) as (pre & v & post & -> & Hpre & Hv).
    exists (u :: pre), v, post. split; [reflexivity|].
    split; [constructor; [now exists x | assumption] | assumption].
  - intros H. injection H as ->. exists [], u, vs. auto.
Qed.

(** X5.  Normalization succeeds exactly when every element is a number
    or a text of the grammar.  When it throws, the error is that of the
    first element that is neither: the invalid-format message quoting a
    malformed text, or the type message for a value that is neither a
    number nor a string. *)
Theorem getRefreshValues_succeeds_iff r :
  ((exists refreshes, getRefreshValues r = Ok refreshes) <->
   Forall WellFormed (flat1 r)) /\
  (forall m, getRefreshValues r = Throw m ->
     exists pre v post,
       flat1 r = pre ++ v :: post /\ Forall WellFormed pre /\
       ((exists s, v = VString s /\ Malformed s /\ m = invalidFormatMessage s) \/
        (v = VOther /\ m = invalidTypeMessage))).
Proof.
  unfold getRefreshValues. split; [split|].
  - intros [refreshes H].
    destruct (mapThrowing refreshValue (flat1 r)) as [xs|m] eqn:E; [|discriminate].
    apply mapThrowing_ok in E. destruct E as [Hall _].
    eapply Forall_impl; [|exact Hall]. intros v. apply Valid_WellFormed.
  - intros Hall. rewrite mapThrowing_valid; [eexists; reflexivity|].
    eapply Forall_impl; [|exact Hall]. intros v. apply Valid_WellFormed.
  - intros m H.
    destruct (mapThrowing refreshValue (flat1 r)) as [xs|m'] eqn:E; [discriminate|].
    cbn [bind] in H. injection H as ->.
    apply mapThrowing_throw in E. destruct E as (pre & v & post & E & Hpre & Hv).
    exists pre, v, post. split; [exact E|]. split.
    { eapply Forall_impl; [|exact Hpre]. intros u. apply Valid_WellFormed. }
    destruct v as [n | s |].
    + unfold refreshValue in Hv. discriminate.
    + left. exists s. split; [reflexivity|].
      unfold refreshValue in Hv. destruct (timeSegmentsOf s) eqn:Et; [discriminate|].
      injection Hv as <-. split; [now apply timeSegmentsOf_malformed | reflexivity].
    + right. unfold refreshValue in Hv. injection Hv as <-. auto.
Qed.

Lemma getRefreshValues_succeeds_iff_witness :
  exists pre v post,
    [VNumber 1; VOther; VString (lit "8:60")] = pre ++ v :: post /\
    Forall WellFormed pre /\
    ((exists s, v = VString s /\ Malformed s /\ invalidTypeMessage = invalidFormatMessage s) \/
     (v = VOther /\ invalidTypeMessage = invalidTypeMessage)).
Proof.
  apply (proj2 (getRefreshValues_succeeds_iff
                  (Many [VNumber 1; VOther; VString (lit "8:60")])) invalidTypeMessage).
  vm_compute. reflexivity.
Defined.

(** X6.  A text of the grammar whose fraction, if it has one, does not
    start with a zero or is all zeros parses to
    hours * 3600000 + minutes * 60000 + seconds * 1000 + milliseconds,
    the milliseconds being the fraction digits right-padded with zeros to
    three, and parts left out counting as zero. *)
Theorem wellformed_text_value v segs :
  ClockText (trim v) segs ->
  (forall f, nth_error segs 3 = Some f -> nth 0 f 0%N <> ch "0" \/ Number f = 0) ->
  refreshValue (VString v) = Ok (specClockValue segs) /\
  0 <= specClockValue segs < TWENTY_FOUR_HOURS.
Proof.
  intros Hc Hf. pose proof (refreshValue_spec_value v segs Hc Hf) as E.
  split; [exact E|].
  rewrite (refreshValue_clock _ _ Hc) in E. injection E as <-.
  apply (codeClockValue_bounds _ _ Hc).
Qed.

Lemma wellformed_text_value_witness :
  refreshValue (VString (lit "8:30:55.25")) = Ok 30655250 /\
  0 <= 30655250 < TWENTY_FOUR_HOURS.
Proof.
  apply (wellformed_text_value (lit "8:30:55.25") [lit "8"; lit "30"; lit "55"; lit "25"]).
  - change (trim (lit "8:30:55.25"))
      with (lit "8" ++ ch ":" :: lit "30" ++ ch ":" :: lit "55" ++ ch "." :: lit "25").
    constructor.
    + apply Hour_one. vm_compute. intuition discriminate.
    + apply Sixtieth_two; vm_compute; intuition discriminate.
    + apply Sixtieth_two; vm_compute; intuition discriminate.
    + split; [|simpl; lia]. repeat constructor; vm_compute; intuition discriminate.
  - intros f Hf. injection Hf as <-. left. vm_compute. discriminate.
Defined.

(** ** More on the resolver *)

Lemma Ascending_before pre o post :
  Ascending (pre ++ o :: post) -> Forall (fun v => v <= o) pre.
Proof.
  intros Hs. apply Ascending_strong in Hs.
  induction pre as [|x pre IH]; [constructor|].
  simpl in Hs. inversion Hs as [|? ? Hs' Hall]; subst.
  constructor; [|now apply IH].
  rewrite Forall_forall in Hall. apply Hall. apply in_or_app. right. now left.
Qed.

(** X7.  On an ascending list the two anchors are neighbours.  When some
    anchor of today lies strictly before [now], the previous anchor is the
    latest such one; when some anchor of today is not before [now], the
    next anchor is the earliest such one; so no anchor of today lies
    strictly between the previous and the next one. *)
Theorem resolved_anchors_are_neighbours midnight now refreshes :
  Ascending refreshes ->
  ((exists v, In v refreshes /\ midnight + v < now) ->
     prevRefreshOf midnight now (rev refreshes) < now /\
     (exists p, In p refreshes /\
                prevRefreshOf midnight now (rev refreshes) = midnight + p) /\
     forall o, In o refreshes -> midnight + o < now ->
               midnight + o <= prevRefreshOf midnight now (rev refreshes)) /\
  ((exists v, In v refreshes /\ now <= midnight + v) ->
     now <= nextRefreshOf midnight now refreshes /\
     (exists n, In n refreshes /\ nextRefreshOf midnight now refreshes = midnight + n) /\
     forall o, In o refreshes -> now <= midnight + o ->
               nextRefreshOf midnight now refreshes <= midnight + o) /\
  ((exists v, In v refreshes /\ midnight + v < now) ->
   (exists v, In v refreshes /\ now <= midnight + v) ->
   forall o, In o refreshes ->
     ~ (prevRefreshOf midnight now (rev refreshes) < midnight + o
        < nextRefreshOf midnight now refreshes)).
Proof.
  intros Hs.
  assert (Hprev : (exists v, In v refreshes /\ midnight + v < now) ->
     prevRefreshOf midnight now (rev refreshes) < now /\
     (exists p, In p refreshes /\
                prevRefreshOf midnight now (rev refreshes) = midnight + p) /\
     forall o, In o refreshes -> midnight + o < now ->
               midnight + o <= prevRefreshOf midnight now (rev refreshes)).
  { intros (v & Hv & Hlt). unfold prevRefreshOf.
    destruct (find (fun v => midnight + v <? now) (rev refreshes)) as [p|] eqn:E.
    - apply find_split in E. destruct E as (pre & post & E & Hpre & Hp).
      apply Z.ltb_lt in Hp. unfold orElse.
      assert (E' : refreshes = rev post ++ p :: rev pre).
      { rewrite <- (rev_involutive refreshes), E, rev_app_distr. simpl.
        now rewrite <- app_assoc. }
      split; [lia|]. split.
      + exists p. split; [|reflexivity]. rewrite E'. apply in_or_app. right. now left.
      + intros o Ho Hlo. rewrite E' in Ho, Hs. apply in_app_or in Ho.
        destruct Ho as [Ho | [<- | Ho]]; [|lia|].
        * apply Ascending_before in Hs. rewrite Forall_forall in Hs.
          apply Hs in Ho. lia.
        * rewrite <- in_rev in Ho. rewrite Forall_forall in Hpre.
          apply Hpre in Ho. apply Z.ltb_ge in Ho. lia.
    - apply find_none with (x := v) in E; [|now rewrite <- in_rev].
      apply Z.ltb_ge in E. lia. }
  assert (Hnext : (exists v, In v refreshes /\ now <= midnight + v) ->
     now <= nextRefreshOf midnight now refreshes /\
     (exists n, In n refreshes /\ nextRefreshOf midnight now refreshes = midnight + n) /\
     forall o, In o refreshes -> now <= midnight + o ->
               nextRefreshOf midnight now refreshes <= midnight + o).
  { intros (v & Hv & Hle).
    destruct (nextRefreshOf_cases midnight now refreshes)
      as [(pre & n & post & E & Hpre & Hn) | Hall].
    - rewrite (nextRefreshOf_found _ _ _ _ _ _ E Hpre Hn).
      split; [lia|]. split.
      + exists n. split; [|reflexivity]. rewrite E. apply in_or_app. right. now left.
      + intros o Ho Hlo. rewrite E in Ho, Hs. apply in_app_or in Ho.
        destruct Ho as [Ho | [<- | Ho]]; [|lia|].
        * rewrite Forall_forall in Hpre. apply Hpre in Ho. lia.
        * apply Ascending_after in Hs. rewrite Forall_forall in Hs.
          apply Hs in Ho. lia.
    - rewrite Forall_forall in Hall. apply Hall in Hv. lia. }
  split; [exact Hprev|]. split; [exact Hnext|].
  intros Hb Ha o Ho [H1 H2].
  destruct (Hprev Hb) as (_ & _ & Hp). destruct (Hnext Ha) as (_ & _ & Hn).
  destruct (Z_lt_le_dec (midnight + o) now) as [Hlt | Hge].
  - specialize (Hp o Ho Hlt). lia.
  - specialize (Hn o Ho Hge). lia.
Qed.

Lemma resolved_anchors_are_neighbours_witness :
  prevRefreshOf 0 25 (rev [10; 20; 30]) = 20 /\
  nextRefreshOf 0 25 [10; 20; 30] = 30 /\
  ~ (prevRefreshOf 0 25 (rev [10; 20; 30]) < 0 + 20 < nextRefreshOf 0 25 [10; 20; 30]).
Proof.
  split; [reflexivity|]. split; [reflexivity|].
  assert (Hs : Ascending [10; 20; 30]) by (repeat constructor; lia).
  apply (proj2 (proj2 (resolved_anchors_are_neighbours 0 25 [10; 20; 30] Hs))).
  - exists 10. split; [now left | lia].
  - exists 30. split; [now right; right; left | lia].
  - right. now left.
Defined.

(** X8.  The next refresh is never more than 24 hours away.  With [now]
    inside the current day, and either no [refreshAt] or one that
    normalizes to a non-empty list of non-negative offsets, the effect
    resolves a next instant with [now <= next <= now + 24h]; without
    [refreshAt] the next instant is tomorrow's midnight, strictly after
    [now], and the previous one is today's. *)
Theorem next_refresh_within_a_day ro midnight now :
  midnight <= now < midnight + TWENTY_FOUR_HOURS ->
  (forall r, ro = Some r ->
     exists refreshes, getRefreshValues r = Ok refreshes /\ refreshes <> [] /\
                       Forall (fun v => 0 <= v) refreshes) ->
  exists next prev,
    resolveRefreshes ro midnight now = Ok (next, prev) /\
    now <= next <= now + TWENTY_FOUR_HOURS /\
    (ro = None ->
       next = midnight + TWENTY_FOUR_HOURS /\ prev = midnight /\ prev <= now < next).
Proof.
  intros Hday Hro. destruct ro as [r|].
  - destruct (Hro r eq_refl) as (refreshes & Hr & Hne & Hpos).
    destruct (getRefreshValues_ok _ _ Hr) as (Hs & Hbound & _).
    exists (nextRefreshOf midnight now refreshes),
           (prevRefreshOf midnight now (rev refreshes)).
    split; [now apply resolveRefreshes_some|]. split; [|discriminate].
    assert (Hhd : In (nth 0 refreshes 0) refreshes)
      by (destruct refreshes; [contradiction | now left]).
    rewrite Forall_forall in Hpos, Hbound.
    destruct (nextRefreshOf_cases midnight now refreshes)
      as [(pre & o & post & E & Hpre & Ho) | Hall].
    + rewrite (nextRefreshOf_found _ _ _ _ _ _ E Hpre Ho).
      assert (Hin : In o refreshes) by (rewrite E; apply in_or_app; right; now left).
      pose proof (Hbound o Hin). lia.
    + rewrite (nextRefreshOf_wrapped _ _ _ Hall).
      pose proof (Hpos _ Hhd). rewrite Forall_forall in Hall.
      pose proof (Hall _ Hhd). lia.
  - exists (midnight + TWENTY_FOUR_HOURS), midnight.
    split; [reflexivity|]. split; [lia|]. intros _. repeat split; lia.
Qed.

Lemma next_refresh_within_a_day_witness :
  exists next prev,
    resolveRefreshes (Some (One (VString (lit "5:00")))) 1657238400000 1657257330561 =
      Ok (next, prev) /\
    1657257330561 <= next <= 1657257330561 + TWENTY_FOUR_HOURS /\
    (Some (One (VString (lit "5:00"))) = None ->
       next = 1657238400000 + TWENTY_FOUR_HOURS /\ prev = 1657238400000 /\
       prev <= 1657257330561 < next).
Proof.
  apply (next_refresh_within_a_day (Some (One (VString (lit "5:00"))))
           1657238400000 1657257330561).
  - unfold TWENTY_FOUR_HOURS. lia.
  - intros r Hr. injection Hr as <-. exists [18000000].
    split; [vm_compute; reflexivity|]. split; [discriminate|].
    constructor; [lia | constructor].
Defined.

(** X9.  The effect arms all or nothing.  Either it throws and leaves the
    host as it was, which happens exactly when [refreshAt] is given and its
    normalization throws or is empty; or it adds exactly two one-shot
    timers after those pending, the first running [refresh] and due not
    before [now], the second starting the interval of the configured
    length, 24 hours by default, and it changes nothing else. *)
Theorem effect_all_or_nothing o h :
  ((exists m, effect o h = (h, Throw m)) <->
   exists r, refreshAt o = Some r /\
             (getRefreshValues r = Ok [] \/ exists m, getRefreshValues r = Throw m)) /\
  ((exists m, effect o h = (h, Throw m)) \/
   exists t1 t2,
     effect o h =
       (mkHost (clock h) (startOfLocalDay h) (timers h ++ [t1; t2]) (refreshed h),
        Ok tt) /\
     repeats t1 = Once /\ action t1 = Refresh /\ clock h <= due t1 /\
     repeats t2 = Once /\
     action t2 = ThenSetInterval Refresh (orElse (interval o) TWENTY_FOUR_HOURS)).
Proof.
  unfold effect, resolveRefreshes.
  destruct (refreshAt o) as [r|].
  - destruct (getRefreshValues r) as [[|x refreshes]|m] eqn:Hr; cbn [bind List.length Nat.eqb].
    + split; [|left; eexists; reflexivity].
      split; [intros _; exists r; auto | intros _; eexists; reflexivity].
    + split.
      * split; [intros [m Hm]; discriminate|].
        intros (r' & E & [H | [m H]]); injection E as <-; congruence.
      * right. do 2 eexists. split.
        { unfold setIntervalRelativeTo, setTimeout, addTimer. cbn [clock startOfLocalDay
            timers refreshed]. rewrite <- app_assoc. reflexivity. }
        cbn [repeats action due]. repeat split. lia.
    + split; [|left; eexists; reflexivity].
      split; [intros _; exists r; eauto | intros _; eexists; reflexivity].
  - split.
    + split; [intros [m Hm]; discriminate | intros (r & E & _); discriminate].
    + right. do 2 eexists. split.
      { unfold setIntervalRelativeTo, setTimeout, addTimer. cbn [clock startOfLocalDay
          timers refreshed]. rewrite <- app_assoc. reflexivity. }
      cbn [repeats action due]. repeat split. lia.
Qed.

Lemma effect_all_or_nothing_witness :
  exists m,
    effect (mkOptions None (Some (Many [VNumber 1; VString (lit "8:60")])) None None)
           (mkHost 1657257330561 (fun t => t) [] []) =
    (mkHost 1657257330561 (fun t => t) [] [], Throw m).
Proof.
  apply (proj2 (proj1 (effect_all_or_nothing
    (mkOptions None (Some (Many [VNumber 1; VString (lit "8:60")])) None None)
    (mkHost 1657257330561 (fun t => t) [] [])))).
  exists (Many [VNumber 1; VString (lit "8:60")]). split; [reflexivity|].
  right. eexists. vm_compute. reflexivity.
Defined.

(** ** More on the timers *)



(** Hosts in step with a grid stay in step. *)

Lemma runCallback_clock fn h : clock (runCallback fn h) = clock h.
Proof. induction fn as [|fn IH ms]; cbn; [reflexivity | exact IH]. Qed.

Lemma runCallback_on_grid from ms fn h :
  0 < ms -> startsOnly ms fn -> onGrid from ms (clock h) ->
  OnGrid from ms h -> OnGrid from ms (runCallback fn h).
Proof.
  intros Hms. revert h. induction fn as [|fn IH ms']; intros h Hfn Hc [Ht Hr].
  - split; cbn; [assumption | now constructor].
  - destruct Hfn as [-> Hfn]. specialize (IH h Hfn Hc (conj Ht Hr)).
    destruct IH as [Ht' Hr']. cbn [runCallback]. unfold setInterval, addTimer.
    split; cbn [timers refreshed]; [|assumption].
    apply Forall_app. split; [assumption|]. constructor; [|constructor].
    rewrite runCallback_clock. split; [|split].
    + cbn [due]. rewrite Z.max_r by lia. now apply onGrid_next.
    + cbn [repeats]. intros p Hp. now injection Hp as <-.
    + exact Hfn.
Qed.

Lemma step_on_grid from ms h h' :
  0 < ms -> OnGrid from ms h -> step h h' -> OnGrid from ms h'.
Proof.
  intros Hms [Ht Hr] Hstep. destruct Hstep as [h pre t post E _].
  rewrite E in Ht. apply Forall_app in Ht. destruct Ht as [Hpre Ht].
  inversion Ht as [|? ? (Hdue & Hper & Hact) Hpost]; subst.
  unfold fire. apply runCallback_on_grid; try assumption.
  split; cbn [timers refreshed]; [|assumption].
  apply Forall_app. split; [assumption|]. apply Forall_app. split; [assumption|].
  destruct (repeats t) as [|p] eqn:Hrep; [constructor|].
  rewrite (Hper p eq_refl). constructor; [|constructor]. split; [|split].
  - cbn [due]. rewrite Z.max_r by lia. now apply onGrid_next.
  - cbn [repeats]. intros q Hq. now injection Hq as <-.
  - exact Hact.
Qed.

Lemma steps_on_grid from ms h h' :
  0 < ms -> OnGrid from ms h -> steps h h' -> OnGrid from ms h'.
Proof.
  intros Hms Hh Hsteps. induction Hsteps as [h | h1 h2 h3 _ IH Hstep]; [assumption|].
  apply (step_on_grid from ms h2 h3 Hms (IH Hh) Hstep).
Qed.

(** X11.  With neither [refreshAt] nor [interval], on a host with nothing
    pending and [now] inside the current day, both timers of the effect
    are due at the next midnight; a refresh does run at that instant, and
    every refresh that ever runs falls on a midnight, a whole number of
    24-hour periods after the current one. *)
Theorem default_options_refresh_at_midnight u rct h :
  timers h = [] -> refreshed h = [] ->
  getCurrentMidnight h u <= clock h < getCurrentMidnight h u + TWENTY_FOUR_HOURS ->
  effect (mkOptions u None rct None) h =
    (mkHost (clock h) (startOfLocalDay h)
       [mkTimer (getCurrentMidnight h u + TWENTY_FOUR_HOURS) Once Refresh;
        mkTimer (getCurrentMidnight h u + TWENTY_FOUR_HOURS) Once
                (ThenSetInterval Refresh TWENTY_FOUR_HOURS)] [],
     Ok tt) /\
  (exists h', step (fst (effect (mkOptions u None rct None) h)) h' /\
              refreshed h' = [getCurrentMidnight h u + TWENTY_FOUR_HOURS]) /\
  (forall h', steps (fst (effect (mkOptions u None rct None) h)) h' ->
     Forall (onGrid (getCurrentMidnight h u) TWENTY_FOUR_HOURS) (refreshed h')).
Proof.
  intros Ht Hr Hday.
  set (m := getCurrentMidnight h u) in *.
  assert (HD : 0 < TWENTY_FOUR_HOURS) by (unfold TWENTY_FOUR_HOURS; lia).
  assert (E : effect (mkOptions u None rct None) h =
    (mkHost (clock h) (startOfLocalDay h)
       [mkTimer (m + TWENTY_FOUR_HOURS) Once Refresh;
        mkTimer (m + TWENTY_FOUR_HOURS) Once
                (ThenSetInterval Refresh TWENTY_FOUR_HOURS)] [],
     Ok tt)).
  { unfold effect, resolveRefreshes. cbn [refreshAt interval utc orElse]. fold m.
    unfold setIntervalRelativeTo, setTimeout, addTimer.
    cbn [clock startOfLocalDay timers refreshed]. rewrite Ht, Hr. cbn [app].
    rewrite Z.rem_small by lia. rewrite !Z.max_r by lia.
    do 2 f_equal. f_equal; [f_equal; lia|]. f_equal. f_equal. lia. }
  split; [exact E|]. rewrite E. cbn [fst]. split.
  - eexists. split.
    + apply (step_fire _ [] (mkTimer (m + TWENTY_FOUR_HOURS) Once Refresh)
               [mkTimer (m + TWENTY_FOUR_HOURS) Once
                        (ThenSetInterval Refresh TWENTY_FOUR_HOURS)]).
      * reflexivity.
      * cbn [timers]. repeat constructor; cbn [due]; lia.
    + reflexivity.
  - intros h' Hsteps.
    apply (steps_on_grid m TWENTY_FOUR_HOURS _ h' HD) in Hsteps; [apply Hsteps|].
    split; cbn [timers refreshed]; [|constructor].
    assert (Hg : onGrid m TWENTY_FOUR_HOURS (m + TWENTY_FOUR_HOURS))
      by (exists 1; lia).
    constructor; [|constructor; [|constructor]].
    + split; [exact Hg|]. split; [discriminate | exact I].
    + split; [exact Hg|]. split; [discriminate | split; [reflexivity | exact I]].
Qed.

Lemma default_options_refresh_at_midnight_witness :
  effect (mkOptions (Some true) None None None)
         (mkHost 1657257330561 (fun t => t) [] []) =
    (mkHost 1657257330561 (fun t => t)
       [mkTimer 1657324800000 Once Refresh;
        mkTimer 1657324800000 Once (ThenSetInterval Refresh TWENTY_FOUR_HOURS)] [],
     Ok tt).
Proof.
  apply (default_options_refresh_at_midnight (Some true) None
           (mkHost 1657257330561 (fun t => t) [] [])).
  - reflexivity.
  - reflexivity.
  - vm_compute. split; [discriminate | reflexivity].
Defined.

(** X12.  With [utc] set, the date the hook returns is never in the
    future and never a whole day old: it is [now] itself or the UTC
    midnight at or next before [now]. *)
Theorem returned_date_within_last_day rf rct int h :
  clock h - TWENTY_FOUR_HOURS < useCurrentDate (mkOptions (Some true) rf rct int) h
    <= clock h /\
  (useCurrentDate (mkOptions (Some true) rf rct int) h = clock h \/
   useCurrentDate (mkOptions (Some true) rf rct int) h mod TWENTY_FOUR_HOURS = 0).
Proof.
  unfold useCurrentDate.
  destruct (returnCurrentTimeOf (mkOptions (Some true) rf rct int)).
  - assert (0 < TWENTY_FOUR_HOURS) by (unfold TWENTY_FOUR_HOURS; lia).
    split; [lia | now left].
  - cbn [utc]. unfold getCurrentMidnight, orElse, TWENTY_FOUR_HOURS.
    pose proof (Z.div_mod (clock h) (24 * 60 * 60 * 1000) ltac:(lia)).
    pose proof (Z.mod_pos_bound (clock h) (24 * 60 * 60 * 1000) ltac:(lia)).
    split; [lia|]. right. apply Z.mod_mul. lia.
Qed.

(** ** Teardown *)

Lemma nth_setAt {A} (l : list A) i x d :
  (i < List.length l)%nat -> nth i (setAt i x l) d = x.
Proof.
  revert i. induction l as [|y l IH]; intros [|i] Hi; simpl in *; try lia.
  - reflexivity.
  - apply IH. lia.
Qed.

Lemma length_setAt {A} (l : list A) i x : List.length (setAt i x l) = List.length l.
Proof.
  revert i. induction l as [|y l IH]; intros [|i]; simpl; auto.
Qed.

Lemma filter_all_kept {A} (f : A -> bool) l :
  Forall (fun x => f x = true) l -> filter f l = l.
Proof. induction 1 as [|x l Hx _ IH]; simpl; [reflexivity | now rewrite Hx, IH]. Qed.

Lemma filter_none_kept {A} (f : A -> bool) l :
  Forall (fun x => f x = false) l -> filter f l = [].
Proof. induction 1 as [|x l Hx _ IH]; simpl; [reflexivity | now rewrite Hx]. Qed.

(** Forgetting the handles turns the effect and the steps of this module
    into those of the host above. *)
Lemma forget_runClosure fn s :
  Handles.forget (Handles.runClosure fn s) =
  runCallback (Handles.forgetClosure fn) (Handles.forget s).
Proof.
  revert s. induction fn as [|fn IH ms cell]; intros s; [reflexivity|].
  cbn [Handles.runClosure Handles.forgetClosure runCallback].
  rewrite <- IH. unfold Handles.setInterval, Handles.assign, Handles.forget, setInterval,
    addTimer. cbn. now rewrite map_app.
Qed.

Lemma forget_step s s' : Handles.step s s' -> step (Handles.forget s) (Handles.forget s').
Proof.
  intros [s0 pre e post E Hmin].
  assert (Ef : Handles.forget (Handles.fire pre e post s0) =
               fire (map Handles.forgetEntry pre) (Handles.forgetEntry e)
                    (map Handles.forgetEntry post) (Handles.forget s0)).
  { unfold Handles.fire, fire. rewrite forget_runClosure. f_equal.
    unfold Handles.forget. cbn. f_equal. rewrite !map_app. do 2 f_equal.
    destruct (Handles.every e); reflexivity. }
  rewrite Ef. apply step_fire.
  - unfold Handles.forget. cbn [timers]. rewrite E, map_app. reflexivity.
  - unfold Handles.forget. cbn [timers]. apply Forall_map.
    eapply Forall_impl; [|exact Hmin]. intros e' He'. exact He'.
Qed.

Lemma forget_effect o s :
  Handles.forget (fst (Handles.effect o s)) = fst (effect o (Handles.forget s)) /\
  (forall m, snd (Handles.effect o s) = Throw m <->
             snd (effect o (Handles.forget s)) = Throw m).
Proof.
  unfold Handles.effect, effect.
  change (clock (Handles.forget s)) with (Handles.now s).
  destruct (resolveRefreshes (refreshAt o) _ (Handles.now s)) as [[next prev]|m].
  - split; [|intros m; split; discriminate].
    unfold Handles.forget, setIntervalRelativeTo, setTimeout, addTimer. cbn.
    now rewrite !map_app.
  - split; [reflexivity|].
    intros m'; cbn [snd]; split; intros H; injection H as ->; reflexivity.
Qed.

Lemma effect_owned o s s1 c :
  Handles.pending s = [] -> Handles.effect o s = (s1, Ok c) -> Handles.Owned c s1.
Proof.
  intros Hp. unfold Handles.effect.
  destruct (resolveRefreshes (refreshAt o) _ (Handles.now s)) as [[next prev]|m];
    [|discriminate].
  cbn. intros H. injection H as <- <-. cbn. rewrite Hp. cbn.
  split; [rewrite length_app; simpl; lia|].
  left. split; [now rewrite nth_middle|].
  eexists (Handles.mkEntry _ _ _ _). split.
  - split; [reflexivity|]. split; [reflexivity|]. eexists. reflexivity.
  - right. eexists (Handles.mkEntry _ _ _ _). split; [|reflexivity].
    repeat split.
Qed.

Lemma step_owned c s s' : Handles.Owned c s -> Handles.step s s' -> Handles.Owned c s'.
Proof.
  destruct c as [timeout [first interval]].
  intros [Hcell Hphase] Hstep.
  inversion Hstep as [s0 pre e post E _]; subst s0 s'. clear Hstep.
  destruct Hphase as [[Hvar (f & Hf & Hp)] | (i & Hvar & Hall)].
  - (* before the first fire of the re-armer *)
    assert (Hcases :
      (e = f /\ (pre ++ post = [] \/
                 exists t, Handles.ownTimeout timeout t /\ pre ++ post = [t])) \/
      (Handles.ownTimeout timeout e /\ pre ++ post = [f])).
    { destruct Hp as [Hp | (t & Ht & Hp)]; rewrite Hp in E.
      - destruct pre as [|x [|y pre]]; simpl in E; try discriminate.
        injection E as <- <-. left. auto.
      - destruct pre as [|x [|y [|z pre]]]; simpl in E; try discriminate.
        + injection E as <- <-. right. auto.
        + injection E as <- <- <-. left. split; [reflexivity|]. right. exists t. auto. }
    destruct Hcases as [[-> Hrest] | [He Hrest]].
    + (* the re-armer's one-shot fires and assigns the variable *)
      destruct Hf as (Hh & Hev & ms & Hrun).
      unfold Handles.fire. rewrite Hev, Hrun, app_nil_r.
      cbn. split; [now rewrite length_setAt|].
      right. exists (Handles.nextHandle s).
      split; [now apply nth_setAt|].
      apply Forall_app. split.
      * destruct Hrest as [-> | (t & Ht & ->)]; [constructor|].
        constructor; [now left | constructor].
      * constructor; [|constructor]. right.
        split; [reflexivity|]. split; [reflexivity|]. now exists ms.
    + (* the anchor timer fires *)
      destruct He as (Hh & Hev & Hrun).
      unfold Handles.fire. rewrite Hev, Hrun, app_nil_r, Hrest.
      cbn. split; [assumption|]. left. split; [assumption|].
      exists f. auto.
  - (* afterwards *)
    rewrite E in Hall. apply Forall_app in Hall. destruct Hall as [Hpre Hall].
    inversion Hall as [|? ? He Hpost]; subst.
    unfold Handles.fire.
    destruct He as [(Hh & Hev & Hrun) | (Hh & Hrun & ms & Hev)]; rewrite Hev, Hrun.
    + cbn. split; [assumption|]. right. exists i. split; [assumption|].
      rewrite app_nil_r. apply Forall_app. now split.
    + cbn. split; [assumption|]. right. exists i. split; [assumption|].
      apply Forall_app. split; [assumption|]. apply Forall_app. split; [assumption|].
      constructor; [|constructor]. right.
      split; [exact Hh|]. split; [reflexivity|]. now exists ms.
Qed.

Lemma steps_owned c s s' :
  Handles.Owned c s -> Handles.steps s s' -> Handles.Owned c s'.
Proof.
  intros Hs Hsteps. induction Hsteps as [s | s1 s2 s3 _ IH Hstep]; [assumption|].
  apply (step_owned c s2 s3 (IH Hs) Hstep).
Qed.

Lemma keeps_own (id : nat) e : Handles.handle e = id -> Handles.keeps (Some id) e = false.
Proof. intros <-. unfold Handles.keeps. now rewrite Nat.eqb_refl. Qed.

Lemma cleanup_pending timeout first interval s :
  Handles.pending (Handles.cleanup (timeout, (first, interval)) s) =
  filter (Handles.keeps (nth interval (Handles.variables s) None))
    (filter (Handles.keeps (Some first))
       (filter (Handles.keeps (Some timeout)) (Handles.pending s))).
Proof. reflexivity. Qed.

Lemma filter_drops {A} (f g h : A -> bool) l :
  Forall (fun x => f x = false \/ g x = false \/ h x = false) l ->
  filter h (filter g (filter f l)) = [].
Proof.
  induction 1 as [|x l Hx _ IH]; [reflexivity|]. cbn [filter].
  destruct (f x) eqn:Ef; [|exact IH]. cbn [filter].
  destruct (g x) eqn:Eg; [|exact IH]. cbn [filter].
  destruct (h x) eqn:Eh; [|exact IH].
  destruct Hx as [Hx | [Hx | Hx]]; discriminate.
Qed.

Lemma owned_cleanup c s : Handles.Owned c s -> Handles.pending (Handles.cleanup c s) = [].
Proof.
  destruct c as [timeout [first interval]]. intros [_ Hphase].
  rewrite cleanup_pending. apply filter_drops.
  destruct Hphase as [[Hvar (f & Hf & Hp)] | (i & Hvar & Hall)].
  - assert (Hfd : Handles.keeps (Some first) f = false)
      by (apply keeps_own; apply Hf).
    destruct Hp as [-> | (t & Ht & ->)].
    + constructor; [auto | constructor].
    + constructor; [left; apply keeps_own; apply Ht|].
      constructor; [auto | constructor].
  - rewrite Hvar. eapply Forall_impl; [|exact Hall].
    intros e [He | He].
    + left. apply keeps_own. apply He.
    + right. right. apply keeps_own. apply He.
Qed.

Lemma filter_kept {A} (f : A -> bool) l : Forall (fun x => f x = true) (filter f l).
Proof. rewrite Forall_forall. intros x Hx. now apply filter_In in Hx. Qed.

Lemma Forall_filter {A} (P : A -> Prop) (f : A -> bool) l :
  Forall P l -> Forall P (filter f l).
Proof.
  rewrite !Forall_forall. intros H x Hx. apply filter_In in Hx. now apply H.
Qed.

(** X13.  The cleanup cancels everything the effect set.  Run on a host
    with nothing pending, after any number of timer fires, the cleanup
    leaves no timer pending, whether the re-armer's first timer has fired
    and handed over to the repeating one or not; so no refresh can run
    any more.  It touches neither the clock nor the log of refreshes. *)
Theorem cleanup_cancels_everything o s s1 c s' :
  Handles.pending s = [] ->
  Handles.effect o s = (s1, Ok c) ->
  Handles.steps s1 s' ->
  Handles.pending (Handles.cleanup c s') = [] /\
  (forall s'', ~ Handles.step (Handles.cleanup c s') s'') /\
  Handles.log (Handles.cleanup c s') = Handles.log s' /\
  Handles.now (Handles.cleanup c s') = Handles.now s'.
Proof.
  intros Hp He Hsteps.
  assert (Hnone : Handles.pending (Handles.cleanup c s') = []).
  { apply owned_cleanup. apply (steps_owned c s1 s'); [|assumption].
    now apply (effect_owned o s). }
  split; [exact Hnone|]. split.
  - intros s'' Hstep. inversion Hstep as [s0 pre e post E _]; subst.
    rewrite Hnone in E. now destruct pre.
  - destruct c as [timeout [first interval]]. split; reflexivity.
Qed.

Lemma cleanup_cancels_everything_witness :
  exists s',
    Handles.steps (fst (Handles.effect demoOptions demoState)) s' /\
    Handles.log s' = [1657257360000] /\
    Handles.pending (Handles.cleanup (1%nat, (2%nat, 0%nat)) s') = [].
Proof.
  set (t := Handles.mkEntry 1 1657342800000 Once Handles.CallRefresh).
  set (f := Handles.mkEntry 2 1657257360000 Once
              (Handles.CallThenSetInterval Handles.CallRefresh 120000 0)).
  assert (Hstep : Handles.step (fst (Handles.effect demoOptions demoState))
                    (Handles.fire [t] f [] (fst (Handles.effect demoOptions demoState)))).
  { apply Handles.step_fire; [reflexivity|].
    repeat constructor; vm_compute; discriminate. }
  exists (Handles.fire [t] f [] (fst (Handles.effect demoOptions demoState))).
  split; [eapply Handles.steps_next; [apply Handles.steps_refl | exact Hstep]|].
  split; [reflexivity|].
  apply (cleanup_cancels_everything demoOptions demoState
           (fst (Handles.effect demoOptions demoState))).
  - reflexivity.
  - reflexivity.
  - eapply Handles.steps_next; [apply Handles.steps_refl | exact Hstep].
Defined.

(** X14.  The cleanup is idempotent: a second call changes nothing. *)
Theorem cleanup_idempotent c s :
  Handles.cleanup c (Handles.cleanup c s) = Handles.cleanup c s.
Proof.
  destruct c as [timeout [first interval]].
  unfold Handles.cleanup, Handles.clear, Handles.clearTimer.
  cbn [Handles.now Handles.zone Handles.pending Handles.log Handles.nextHandle
       Handles.variables].
  f_equal.
  set (k1 := Handles.keeps (Some timeout)).
  set (k2 := Handles.keeps (Some first)).
  set (k3 := Handles.keeps (nth interval (Handles.variables s) None)).
  set (l := Handles.pending s).
  rewrite (filter_all_kept k1 (filter k3 (filter k2 (filter k1 l))))
    by (do 2 apply Forall_filter; apply filter_kept).
  rewrite (filter_all_kept k2 (filter k3 (filter k2 (filter k1 l))))
    by (apply Forall_filter; apply filter_kept).
  apply filter_all_kept, filter_kept.
Qed.

Lemma keeps_other (id : nat) e : Handles.handle e <> id -> Handles.keeps (Some id) e = true.
Proof. intros H. unfold Handles.keeps. apply negb_true_iff, Nat.eqb_neq, H. Qed.

Lemma filter_own_two n l t f :
  Forall (fun e => (Handles.handle e < n)%nat) l ->
  Handles.handle t = n -> Handles.handle f = S n ->
  filter (Handles.keeps None)
    (filter (Handles.keeps (Some (S n)))
       (filter (Handles.keeps (Some n)) ((l ++ [t]) ++ [f]))) = l.
Proof.
  intros Hl Ht Hf.
  assert (H1 : filter (Handles.keeps (Some n)) ((l ++ [t]) ++ [f]) = l ++ [f]).
  { rewrite !filter_app. cbn [filter].
    rewrite (keeps_own n t Ht), (keeps_other n f) by lia.
    rewrite app_nil_r. f_equal. apply filter_all_kept.
    eapply Forall_impl; [|exact Hl]. intros e He. cbv beta in He. apply keeps_other. lia. }
  assert (H2 : filter (Handles.keeps (Some (S n))) (l ++ [f]) = l).
  { rewrite filter_app. cbn [filter]. rewrite (keeps_own (S n) f Hf).
    rewrite app_nil_r. apply filter_all_kept.
    eapply Forall_impl; [|exact Hl]. intros e He. cbv beta in He. apply keeps_other. lia. }
  rewrite H1, H2. apply filter_all_kept. now apply Forall_forall.
Qed.

(** X15.  Arming and disposing at once leaves the pending timers as they
    were: on a host whose pending timers carry handles already handed out,
    the cleanup of a successful effect removes the two timers the effect
    added and no other. *)
Theorem cleanup_restores_pending o s s1 c :
  Forall (fun e => (Handles.handle e < Handles.nextHandle s)%nat) (Handles.pending s) ->
  Handles.effect o s = (s1, Ok c) ->
  List.length (Handles.pending s1) = (List.length (Handles.pending s) + 2)%nat /\
  Handles.pending (Handles.cleanup c s1) = Handles.pending s.
Proof.
  intros Hold. unfold Handles.effect.
  destruct (resolveRefreshes (refreshAt o) _ (Handles.now s)) as [[next prev]|m];
    [|discriminate].
  cbn. intros H. injection H as <- <-.
  cbn [Handles.pending]. split; [rewrite !length_app; simpl; lia|].
  rewrite cleanup_pending. cbn [Handles.pending Handles.variables].
  rewrite nth_middle. now apply filter_own_two.
Qed.

Lemma cleanup_restores_pending_witness :
  Handles.pending
    (Handles.cleanup (1%nat, (2%nat, 0%nat))
       (fst (Handles.effect demoOptions
               (Handles.mkState 1657257330561 (fun t => t)
                  [Handles.mkEntry 0 1657257331000 Once Handles.CallRefresh] [] 1 [])))) =
  [Handles.mkEntry 0 1657257331000 Once Handles.CallRefresh].
Proof.
  apply (proj2 (cleanup_restores_pending demoOptions
           (Handles.mkState 1657257330561 (fun t => t)
              [Handles.mkEntry 0 1657257331000 Once Handles.CallRefresh] [] 1 [])
           _ (1%nat, (2%nat, 0%nat))
           ltac:(repeat constructor) eq_refl)).
Defined.

(** ** The effect as a whole *)

Lemma step_scheduled anchor from ms h h' :
  0 < ms -> Scheduled anchor from ms h -> step h h' -> Scheduled anchor from ms h'.
Proof.
  intros Hms [Ht Hr] Hstep. destruct Hstep as [h pre t post E _].
  rewrite E in Ht. apply Forall_app in Ht. destruct Ht as [Hpre Ht].
  inversion Ht as [|? ? Hkind Hpost]; subst.
  assert (Hnew : forall x, onGrid from ms x ->
            Forall (fun t => phasedTimer from ms t \/
                             (due t = anchor /\ repeats t = Once /\ action t = Refresh))
                   [mkTimer (x + Z.max 0 ms) (Every ms) Refresh]).
  { intros x Hx. pose proof (phased_every from ms x Hms Hx) as Hp.
    inversion Hp; subst. constructor; [now left | constructor]. }
  unfold fire.
  destruct Hkind as [[Hdue [[Hrep Hact] | [Hrep Hact]]] | (Hdue & Hrep & Hact)];
    rewrite Hrep, Hact.
  - split; cbn.
    + rewrite app_nil_r. apply Forall_app. split; [apply Forall_app; now split|].
      now apply Hnew.
    + constructor; [now right | assumption].
  - split; cbn.
    + apply Forall_app. split; [assumption|]. apply Forall_app. split; [assumption|].
      now apply Hnew.
    + constructor; [now right | assumption].
  - split; cbn.
    + rewrite app_nil_r. apply Forall_app. now split.
    + constructor; [now left | assumption].
Qed.

Lemma steps_scheduled anchor from ms h h' :
  0 < ms -> Scheduled anchor from ms h -> steps h h' -> Scheduled anchor from ms h'.
Proof.
  intros Hms Hh Hsteps. induction Hsteps as [h | h1 h2 h3 _ IH Hstep]; [assumption|].
  apply (step_scheduled anchor from ms h2 h3 Hms (IH Hh) Hstep).
Qed.

(** X16.  A successful effect refreshes at the next anchor and on the
    interval grid of the previous one, and at no other instant.  On a host
    with nothing pending and for a positive interval, every refresh that
    runs after the effect falls on the resolved next instant (on [now]
    should that instant be past) or on the grid [prev + k * interval] of
    the resolved previous instant. *)
Theorem effect_refreshes_only_as_scheduled o h next prev :
  timers h = [] -> refreshed h = [] ->
  0 < orElse (interval o) TWENTY_FOUR_HOURS ->
  resolveRefreshes (refreshAt o) (getCurrentMidnight h (utc o)) (clock h) =
    Ok (next, prev) ->
  snd (effect o h) = Ok tt /\
  forall h', steps (fst (effect o h)) h' ->
    Forall (fun x => x = Z.max (clock h) next \/
                     onGrid prev (orElse (interval o) TWENTY_FOUR_HOURS) x)
           (refreshed h').
Proof.
  intros Ht Hr Hms Hres. unfold effect. rewrite Hres. cbn [fst snd].
  split; [reflexivity|]. intros h' Hsteps.
  set (ms := orElse (interval o) TWENTY_FOUR_HOURS) in *.
  apply (steps_scheduled (Z.max (clock h) next) prev ms _ h' Hms) in Hsteps;
    [apply Hsteps|].
  pose proof (first_delay_bounds prev ms (clock h) Hms) as Hd.
  unfold setIntervalRelativeTo, setTimeout, addTimer.
  split; cbn [clock startOfLocalDay timers refreshed]; rewrite ?Ht, ?Hr;
    [|constructor].
  constructor; [|constructor; [|constructor]].
  - right. cbn [due repeats action]. repeat split. lia.
  - left. split.
    + cbn [due]. rewrite Z.max_r by lia. now apply first_fire_on_grid.
    + left. split; reflexivity.
Qed.

Lemma effect_refreshes_only_as_scheduled_witness :
  snd (effect (mkOptions (Some true) (Some (One (VString (lit "5:00")))) None
                 (Some 120000))
              (mkHost 1657257330561 (fun t => t) [] [])) = Ok tt.
Proof.
  apply (proj1 (effect_refreshes_only_as_scheduled
           (mkOptions (Some true) (Some (One (VString (lit "5:00")))) None (Some 120000))
           (mkHost 1657257330561 (fun t => t) [] [])
           1657342800000 1657256400000
           eq_refl eq_refl eq_refl eq_refl)).
Defined.
